(** * dso-text-scrubber: the sanitisation engine of [main.py]

    A shallow embedding of [replace_match], [generate_fake_data],
    [apply_regex_replacement] and [sanitize_text], together with the facts
    about them that the specification states.

    The program calls two libraries: Python's [re] and [faker].  Both are
    interfaces here ([Re], [Faker]); the program is written once over the
    interfaces, and [PyRe] gives an executable model of the part of [re]
    that the command-line defaults use, so that the program can be run on
    concrete texts.  Characters are the code points below 256. *)

From Stdlib Require Import List Ascii Strings.Byte Bool Arith NArith Lia.
Import ListNotations.

Set Warnings "-via-type-mismatch,-via-type-remapping".

(** ** Strings

    A Python [str] is a sequence of code points; it is a list of characters
    here, and string literals denote such lists. *)

Abbreviation str := (list ascii).

Inductive literal : Type :=
| LitNil
| LitCons (c : ascii) (l : literal).

Fixpoint literal_of_bytes (l : list byte) : literal :=
  match l with
  | [] => LitNil
  | b :: r => LitCons (ascii_of_byte b) (literal_of_bytes r)
  end.

Fixpoint bytes_of_literal (l : literal) : list byte :=
  match l with
  | LitNil => []
  | LitCons c r => byte_of_ascii c :: bytes_of_literal r
  end.

Declare Scope str_scope.
Delimit Scope str_scope with str.
String Notation list literal_of_bytes bytes_of_literal
  (via literal mapping [[nil] => LitNil, [cons] => LitCons]) : str_scope.
Open Scope str_scope.

(** [a == b] on strings. *)
Fixpoint str_eqb (a b : str) : bool :=
  match a, b with
  | [], [] => true
  | x :: a', y :: b' => Ascii.eqb x y && str_eqb a' b'
  | _, _ => false
  end.

Infix "==" := str_eqb (at level 70, no associativity) : str_scope.

(** [string[i:j]] for [0 <= i], [0 <= j]. *)
Definition slice (string : str) (i j : nat) : str :=
  firstn (j - i) (skipn i string).

(** ** Exceptions and log records *)

(** The exceptions the program can meet.  All three are subclasses of
    Python's [Exception]; only the first is [re.error]. *)
Inductive exn : Type :=
| re_error (msg : str)
| OverflowError (msg : str)
| Exception (msg : str).

(** [str(e)] *)
Definition exn_str (e : exn) : str :=
  match e with
  | re_error msg | OverflowError msg | Exception msg => msg
  end.

Inductive levelname : Type := WARNING | ERROR.

Record LogRecord : Type := mkLog { level : levelname; message : str }.

Definition is_error (r : LogRecord) : bool :=
  match level r with ERROR => true | WARNING => false end.

(** ** The two libraries *)

(** A match object, as far as [re.sub] uses it: [m.start()] and [m.end()]. *)
Record Match : Type := mkMatch { m_start : nat; m_end : nat }.

(** [matches_from pos n ms]: the matches lie in [pos .. n], each one at or
    after the end of the one before. *)
Fixpoint matches_from (pos n : nat) (ms : list Match) : Prop :=
  match ms with
  | [] => pos <= n
  | m :: ms' => pos <= m_start m /\ m_start m <= m_end m /\ matches_from (m_end m) n ms'
  end.

(** Python's [re]: [re.compile] returns a pattern or raises;
    [finditer] is the scan behind [re.sub], the successive non-overlapping
    matches from left to right, and may raise as well. *)
Class Re : Type := {
  Pattern : Type;
  re_compile : str -> exn + Pattern;
  finditer : Pattern -> str -> exn + list Match;
  pattern_repr : Pattern -> str;
  finditer_ordered : forall p string ms,
      finditer p string = inr ms -> matches_from 0 (length string) ms
}.

(** [faker]: every provider draws from the shared random generator and
    returns a string. *)
Class Faker : Type := {
  Rng : Type;
  fake_email : Rng -> str * Rng;
  fake_phone_number : Rng -> str * Rng;
  fake_date : Rng -> str * Rng;
  fake_name : Rng -> str * Rng;
  fake_address : Rng -> str * Rng;
  fake_credit_card_full : Rng -> str * Rng;
  fake_word : Rng -> str * Rng
}.

(** ** Effects

    What a call can touch besides its arguments: the random generator
    behind [Faker()] and the records handed to [logging]. *)

Section Effects.

Context {FK : Faker}.

Record State : Type := mkState { rng : Rng; records : list LogRecord }.

(** A computation returns a value or raises, and leaves a state. *)
Definition M (A : Type) : Type := State -> (exn + A) * State.

Definition ret {A} (a : A) : M A := fun st => (inr a, st).

Definition raise {A} (e : exn) : M A := fun st => (inl e, st).

Definition bind {A B} (c : M A) (k : A -> M B) : M B :=
  fun st =>
    match c st with
    | (inr a, st') => k a st'
    | (inl e, st') => (inl e, st')
    end.

(** [try: c  except Exception as e: h e] *)
Definition try_except {A} (c : M A) (h : exn -> M A) : M A :=
  fun st =>
    match c st with
    | (inr a, st') => (inr a, st')
    | (inl e, st') => h e st'
    end.

Definition lift {A} (r : exn + A) : M A := fun st => (r, st).

Definition draw (provider : Rng -> str * Rng) : M str :=
  fun st =>
    let (s, g) := provider (rng st) in
    (inr s, mkState g (records st)).

Definition logging (l : levelname) (msg : str) : M unit :=
  fun st => (inr tt, mkState (rng st) (records st ++ [mkLog l msg])).

End Effects.

Notation "x <- c ;; k" := (bind c (fun x => k))
  (at level 61, c at next level, right associativity).
Notation "c ;;; k" := (bind c (fun _ => k))
  (at level 61, right associativity).

(** ** The program *)

Section Program.

Context {RE : Re} {FK : Faker}.

(** [main.py], lines 50-52. *)
Definition replace_match (match_ : Match) (replacement : str) : M str :=
  ret replacement.

(** [main.py], lines 54-70. *)
Definition generate_fake_data (data_type : str) : M str :=
  if data_type == "email" then draw fake_email
  else if data_type == "phone" then draw fake_phone_number
  else if data_type == "date" then draw fake_date
  else if data_type == "name" then draw fake_name
  else if data_type == "address" then draw fake_address
  else if data_type == "credit_card" then draw fake_credit_card_full
  else draw fake_word.

(** The loop of [re.sub] with a callable: the text from the end of the
    last match to the start of this one, then what the callable returns
    for it; after the last match, the rest of the text. *)
Fixpoint sub_from (repl : Match -> M str) (string : str) (pos : nat)
    (ms : list Match) : M str :=
  match ms with
  | [] => ret (skipn pos string)
  | m :: ms' =>
      item <- repl m ;;
      rest <- sub_from repl string (m_end m) ms' ;;
      ret (slice string pos (m_start m) ++ item ++ rest)
  end.

(** [re.sub] with a callable.  The scan is taken whole before the
    callable is first called, where [re.sub] calls it match by match; the
    two differ only when a scan raises after the callable has drawn from
    the generator.  What is stated below of a failing scan is stated of
    whether the call returns, or under [remove] and [custom], whose
    callables do not draw. *)
Definition re_sub (pattern : Pattern) (repl : Match -> M str) (string : str) : M str :=
  ms <- lift (finditer pattern string) ;;
  sub_from repl string 0 ms.

(** [main.py], lines 72-78. *)
Definition apply_regex_replacement (text : str) (pattern : Pattern)
    (replacement_func : Match -> M str) : M str :=
  try_except (re_sub pattern replacement_func text)
    (fun e =>
       logging ERROR ("Error applying regex pattern " ++ pattern_repr pattern
                        ++ ": " ++ exn_str e) ;;;
       ret text).

(** The [for] loop of [sanitize_text], lines 90-109; [sanitized_text] is
    the variable the loop rewrites.  [not custom_replacement] holds of
    [None] and of the empty string. *)
Fixpoint sanitize_loop (patterns : list str) (replacement_type : str)
    (custom_replacement : option str) (sanitized_text : str) : M str :=
  match patterns with
  | [] => ret sanitized_text
  | pattern_str :: patterns' =>
      let continue := sanitize_loop patterns' replacement_type custom_replacement in
      match re_compile pattern_str with
      | inl (re_error msg) =>
          logging ERROR ("Invalid regex pattern: " ++ pattern_str ++ " - " ++ msg) ;;;
          continue sanitized_text
      | inl e => raise e
      | inr pattern =>
          if replacement_type == "remove" then
            t <- apply_regex_replacement sanitized_text pattern
                   (fun m => replace_match m "") ;;
            continue t
          else if replacement_type == "fake" then
            t <- apply_regex_replacement sanitized_text pattern
                   (fun _ => generate_fake_data pattern_str) ;;
            continue t
          else if replacement_type == "custom" then
            match custom_replacement with
            | None | Some [] =>
                logging ERROR
                  "Custom replacement required but not provided for pattern: {pattern_str}" ;;;
                continue sanitized_text
            | Some replacement =>
                t <- apply_regex_replacement sanitized_text pattern
                       (fun m => replace_match m replacement) ;;
                continue t
            end
          else
            logging ERROR ("Invalid replacement type: " ++ replacement_type
                             ++ " - pattern: " ++ pattern_str) ;;;
            continue sanitized_text
      end
  end.

(** [main.py], lines 81-109. *)
Definition sanitize_text (text : str) (patterns : list str) (replacement_type : str)
    (custom_replacement : option str) : M str :=
  match patterns with
  | [] =>
      logging WARNING "No patterns provided for sanitization, returning original text." ;;;
      ret text
  | _ :: _ => sanitize_loop patterns replacement_type custom_replacement text
  end.

End Program.

(** ** An executable model of [re]

    The part of Python's [re] (CPython 3.11, [Lib/re/_parser.py] and
    [Modules/_sre/sre_lib.h]) that patterns without flags, group references
    and look-around use, over the code points below 256.  [parse] follows
    [_parser.parse]: it returns the pattern, raises [re.error] on malformed
    syntax and [OverflowError] on a repetition count of [MAXREPEAT] or more.
    A pattern outside the part modelled here is answered with [Exception];
    messages leave out the position. *)

Module PyRe.

Local Open Scope char_scope.

Inductive category : Type :=
| DIGIT | NOT_DIGIT | SPACE | NOT_SPACE | WORD | NOT_WORD.

Inductive set_item : Type :=
| CHAR (c : ascii)
| RANGE (lo hi : ascii)
| CATEGORY (k : category).

Inductive at_code : Type :=
| AT_BEGINNING | AT_BEGINNING_STRING | AT_BOUNDARY | AT_NON_BOUNDARY
| AT_END | AT_END_STRING.

Inductive regex : Type :=
| EMPTY
| LITERAL (c : ascii)
| ANY
| IN (negate : bool) (set : list set_item)
| AT (a : at_code)
| SEQ (r1 r2 : regex)
| BRANCH (r1 r2 : regex)
| MAX_REPEAT (lo : N) (hi : option N) (r : regex)
| MIN_REPEAT (lo : N) (hi : option N) (r : regex)
| SUBPATTERN (r : regex).

(** *** Character classes *)

Definition between (lo hi : nat) (c : ascii) : bool :=
  ((lo <=? nat_of_ascii c) && (nat_of_ascii c <=? hi))%nat.

Definition is_digit (c : ascii) : bool := between 48 57 c.

Definition is_space (c : ascii) : bool :=
  between 9 13 c || between 28 32 c || between 133 133 c || between 160 160 c.

Definition is_word (c : ascii) : bool :=
  between 48 57 c || between 65 90 c || between 95 95 c || between 97 122 c
  || between 170 170 c || between 178 179 c || between 181 181 c
  || between 185 186 c || between 188 190 c || between 192 214 c
  || between 216 246 c || between 248 255 c.

Definition is_letter (c : ascii) : bool := between 65 90 c || between 97 122 c.

Definition in_category (k : category) (c : ascii) : bool :=
  match k with
  | DIGIT => is_digit c
  | NOT_DIGIT => negb (is_digit c)
  | SPACE => is_space c
  | NOT_SPACE => negb (is_space c)
  | WORD => is_word c
  | NOT_WORD => negb (is_word c)
  end.

Definition in_item (c : ascii) (it : set_item) : bool :=
  match it with
  | CHAR x => Ascii.eqb c x
  | RANGE lo hi => between (nat_of_ascii lo) (nat_of_ascii hi) c
  | CATEGORY k => in_category k c
  end.

Definition in_set (set : list set_item) (c : ascii) : bool := existsb (in_item c) set.

(** *** The parser *)

Definition error {A} (msg : str) : exn + A := inl (re_error msg).

Definition unsupported {A} : exn + A :=
  inl (Exception "pattern outside the modelled part of re"%str).

Definition MAXREPEAT : N := 4294967295.

Fixpoint digits (s : str) : str * str :=
  match s with
  | c :: s' => if is_digit c then let (d, r) := digits s' in (c :: d, r) else ([], s)
  | [] => ([], [])
  end.

(** [int(d)] for a string of decimal digits. *)
Definition int (d : str) : N :=
  fold_left (fun n c => (n * 10 + (N_of_ascii c - 48))%N) d 0%N.

Definition nonempty (s : str) : bool := match s with [] => false | _ :: _ => true end.

(** The tokenizer reads one token ahead: a backslash that ends the
    pattern is an error as soon as it is the next token. *)
Definition dangling (s : str) : bool :=
  match s with
  | ["\"] => true
  | _ => false
  end.

Inductive brace : Type :=
| BraceLiteral
| BraceRepeat (lo : N) (hi : option N) (rest : str)
| BraceRaise (e : exn).

(** What follows an opening brace: a repetition [{m}], [{m,}], [{,n}],
    [{m,n}], or nothing of the kind, and then the brace is a literal. *)
Definition parse_brace (src : str) : brace :=
  match src with
  | "}" :: _ => BraceLiteral
  | _ =>
      let (lo, s1) := digits src in
      let (hi, s2) := match s1 with
                      | "," :: s1' => digits s1'
                      | _ => (lo, s1)
                      end in
      match s2 with
      | "}" :: rest =>
          let min := if nonempty lo then int lo else 0%N in
          if dangling rest then BraceRaise (re_error "bad escape (end of pattern)"%str)
          else if nonempty lo && (MAXREPEAT <=? int lo)%N then
            BraceRaise (OverflowError "the repetition number is too large"%str)
          else if nonempty hi && (MAXREPEAT <=? int hi)%N then
            BraceRaise (OverflowError "the repetition number is too large"%str)
          else if nonempty hi && (int hi <? min)%N then
            BraceRaise (re_error "min repeat greater than max repeat"%str)
          else BraceRepeat min (if nonempty hi then Some (int hi) else None) rest
      | _ => BraceLiteral
      end
  end.

(** [_class_escape]: a backslash and [c] inside a character set. *)
Definition class_escape (c : ascii) : exn + set_item :=
  match c with
  | "a" => inr (CHAR (ascii_of_nat 7))
  | "b" => inr (CHAR (ascii_of_nat 8))
  | "f" => inr (CHAR (ascii_of_nat 12))
  | "n" => inr (CHAR (ascii_of_nat 10))
  | "r" => inr (CHAR (ascii_of_nat 13))
  | "t" => inr (CHAR (ascii_of_nat 9))
  | "v" => inr (CHAR (ascii_of_nat 11))
  | "d" => inr (CATEGORY DIGIT)
  | "D" => inr (CATEGORY NOT_DIGIT)
  | "s" => inr (CATEGORY SPACE)
  | "S" => inr (CATEGORY NOT_SPACE)
  | "w" => inr (CATEGORY WORD)
  | "W" => inr (CATEGORY NOT_WORD)
  | "x" | "u" | "U" | "N" => unsupported
  | "8" | "9" => error "bad escape"%str
  | _ => if is_digit c then unsupported
         else if is_letter c then error "bad escape"%str
         else inr (CHAR c)
  end.

(** [_escape]: a backslash and [c] outside a character set. *)
Definition escape (c : ascii) : exn + regex :=
  match c with
  | "A" => inr (AT AT_BEGINNING_STRING)
  | "b" => inr (AT AT_BOUNDARY)
  | "B" => inr (AT AT_NON_BOUNDARY)
  | "Z" => inr (AT AT_END_STRING)
  | "d" => inr (IN false [CATEGORY DIGIT])
  | "D" => inr (IN false [CATEGORY NOT_DIGIT])
  | "s" => inr (IN false [CATEGORY SPACE])
  | "S" => inr (IN false [CATEGORY NOT_SPACE])
  | "w" => inr (IN false [CATEGORY WORD])
  | "W" => inr (IN false [CATEGORY NOT_WORD])
  | "a" => inr (LITERAL (ascii_of_nat 7))
  | "f" => inr (LITERAL (ascii_of_nat 12))
  | "n" => inr (LITERAL (ascii_of_nat 10))
  | "r" => inr (LITERAL (ascii_of_nat 13))
  | "t" => inr (LITERAL (ascii_of_nat 9))
  | "v" => inr (LITERAL (ascii_of_nat 11))
  | "x" | "u" | "U" | "N" => unsupported
  | _ => if is_digit c then unsupported
         else if is_letter c then error "bad escape"%str
         else inr (LITERAL c)
  end.

Definition set_char (it : set_item) : option ascii :=
  match it with CHAR c => Some c | _ => None end.

(** One member of a character set: a character or an escape. *)
Definition set_member (src : str) : exn + (set_item * str) :=
  match src with
  | [] => error "unterminated character set"%str
  | ["\"] => error "bad escape (end of pattern)"%str
  | "\" :: c :: rest =>
      match class_escape c with
      | inl e => inl e
      | inr it => inr (it, rest)
      end
  | c :: rest => inr (CHAR c, rest)
  end.

(** The members of a character set up to its closing bracket; [set] holds
    the members read so far, last first. *)
Fixpoint parse_set (fuel : nat) (src : str) (set : list set_item)
  : exn + (list set_item * str) :=
  match fuel with
  | 0 => unsupported
  | S fuel' =>
      match src, set with
      | "]" :: rest, _ :: _ => inr (rev set, rest)
      | _, _ =>
          match set_member src with
          | inl e => inl e
          | inr (code1, "-" :: []) => error "unterminated character set"%str
          | inr (code1, "-" :: "]" :: rest) => inr (rev (CHAR "-" :: code1 :: set), rest)
          | inr (code1, "-" :: src2) =>
              match set_member src2 with
              | inl e => inl e
              | inr (code2, rest) =>
                  match set_char code1, set_char code2 with
                  | Some lo, Some hi =>
                      if (nat_of_ascii hi <? nat_of_ascii lo)%nat
                      then error "bad character range"%str
                      else parse_set fuel' rest (RANGE lo hi :: set)
                  | _, _ => error "bad character range"%str
                  end
              end
          | inr (code1, rest) => parse_set fuel' rest (code1 :: set)
          end
      end
  end.

Fixpoint seq (items : list regex) : regex :=
  match items with
  | [] => EMPTY
  | [r] => r
  | r :: items' => SEQ r (seq items')
  end.

(** Put a repetition around the last item, as [_parse] does. *)
Definition repeat_last (lo : N) (hi : option N) (rest : str) (items : list regex)
  : exn + (list regex * str) :=
  match items with
  | [] | AT _ :: _ => error "nothing to repeat"%str
  | MAX_REPEAT _ _ _ :: _ | MIN_REPEAT _ _ _ :: _ => error "multiple repeat"%str
  | item :: items' =>
      match rest with
      | "?" :: rest' => inr (MIN_REPEAT lo hi item :: items', rest')
      | "+" :: _ => unsupported
      | _ => inr (MAX_REPEAT lo hi item :: items', rest)
      end
  end.

(** [_parse_sub] and [_parse]: the alternatives of a pattern, and the
    items of one alternative ([items] holds them last first). *)
Fixpoint parse_sub (fuel : nat) (src : str) : exn + (regex * str) :=
  match fuel with
  | 0 => unsupported
  | S fuel' =>
      match parse_items fuel' src [] with
      | inl e => inl e
      | inr (items, "|" :: rest) =>
          match parse_sub fuel' rest with
          | inl e => inl e
          | inr (r2, rest') => inr (BRANCH (seq (rev items)) r2, rest')
          end
      | inr (items, rest) => inr (seq (rev items), rest)
      end
  end
with parse_items (fuel : nat) (src : str) (items : list regex)
  : exn + (list regex * str) :=
  match fuel with
  | 0 => unsupported
  | S fuel' =>
      let repeat lo hi rest :=
        match repeat_last lo hi rest items with
        | inl e => inl e
        | inr (items', rest') => parse_items fuel' rest' items'
        end in
      if dangling src then error "bad escape (end of pattern)"%str else
      match src with
      | [] => inr (items, [])
      | "|" :: _ | ")" :: _ => inr (items, src)
      | "\" :: c :: rest =>
          match escape c with
          | inl e => inl e
          | inr code => parse_items fuel' rest (code :: items)
          end
      | "[" :: rest =>
          let (negate, rest1) := match rest with
                                 | "^" :: rest1 => (true, rest1)
                                 | _ => (false, rest)
                                 end in
          match parse_set (S (length rest1)) rest1 [] with
          | inl e => inl e
          | inr (set, rest2) => parse_items fuel' rest2 (IN negate set :: items)
          end
      | "?" :: rest => repeat 0%N (Some 1%N) rest
      | "*" :: rest => repeat 0%N None rest
      | "+" :: rest => repeat 1%N None rest
      | "{" :: rest =>
          match parse_brace rest with
          | BraceLiteral => parse_items fuel' rest (LITERAL "{" :: items)
          | BraceRaise e => inl e
          | BraceRepeat lo hi rest' => repeat lo hi rest'
          end
      | "." :: rest => parse_items fuel' rest (ANY :: items)
      | "(" :: rest =>
          let group := match rest with
                       | ["?"] => error "unexpected end of pattern"%str
                       | "?" :: ":" :: body => parse_sub fuel' body
                       | "?" :: _ => unsupported
                       | _ => parse_sub fuel' rest
                       end in
          match group with
          | inl e => inl e
          | inr (p, ")" :: rest') => parse_items fuel' rest' (SUBPATTERN p :: items)
          | inr _ => error "missing ), unterminated subpattern"%str
          end
      | "^" :: rest => parse_items fuel' rest (AT AT_BEGINNING :: items)
      | "$" :: rest => parse_items fuel' rest (AT AT_END :: items)
      | c :: rest => parse_items fuel' rest (LITERAL c :: items)
      end
  end.

(** [_parser.parse] *)
Definition parse (src : str) : exn + regex :=
  match parse_sub (2 * length src + 2) src with
  | inl e => inl e
  | inr (r, []) => inr r
  | inr (_, _ :: _) => error "unbalanced parenthesis"%str
  end.

(** *** The matcher

    A backtracking matcher in continuation style, after [sre_lib.h]: a
    matcher is given the character before the position, the text from the
    position on, the position, and what remains to be matched after it. *)

Definition K : Type := option ascii -> str -> nat -> option nat.

Definition Matcher : Type := option ascii -> str -> nat -> K -> option nat.

Definition word_before (prev : option ascii) : bool :=
  match prev with Some c => is_word c | None => false end.

Definition word_here (s : str) : bool :=
  match s with c :: _ => is_word c | [] => false end.

Definition empty_text (prev : option ascii) (s : str) : bool :=
  match prev, s with None, [] => true | _, _ => false end.

Definition at_ok (a : at_code) (prev : option ascii) (s : str) : bool :=
  match a with
  | AT_BEGINNING | AT_BEGINNING_STRING =>
      match prev with None => true | Some _ => false end
  | AT_BOUNDARY =>
      negb (empty_text prev s) && xorb (word_before prev) (word_here s)
  | AT_NON_BOUNDARY =>
      negb (empty_text prev s) && negb (xorb (word_before prev) (word_here s))
  | AT_END =>
      match s with
      | [] => true
      | [c] => Ascii.eqb c (ascii_of_nat 10)
      | _ => false
      end
  | AT_END_STRING =>
      match s with [] => true | _ :: _ => false end
  end.

(** One character that satisfies [ok]. *)
Definition one (ok : ascii -> bool) : Matcher :=
  fun prev s i k =>
    match s with
    | c :: s' => if ok c then k (Some c) s' (S i) else None
    | [] => None
    end.

Definition below (count : N) (hi : option N) : bool :=
  match hi with
  | Some n => (count <? n)%N
  | None => true
  end.

Definition same_place (last : option nat) (i : nat) : bool :=
  match last with
  | Some j => (j =? i)%nat
  | None => false
  end.

(** [MAX_UNTIL]: after [count] rounds of [body], at position [i].  Below
    the minimum another round is due; from there on another round is
    tried first, unless the last one did not move, and then the tail. *)
Fixpoint max_until (body : Matcher) (lo : N) (hi : option N) (fuel : nat)
    (count : N) (last : option nat) (prev : option ascii) (s : str) (i : nat)
    (k : K) : option nat :=
  match fuel with
  | 0 => None
  | S fuel' =>
      if (count <? lo)%N then
        body prev s i (fun p' s' i' => max_until body lo hi fuel' (count + 1) last p' s' i' k)
      else
        let again :=
          if below count hi && negb (same_place last i) then
            body prev s i
              (fun p' s' i' => max_until body lo hi fuel' (count + 1) (Some i) p' s' i' k)
          else None in
        match again with
        | Some j => Some j
        | None => k prev s i
        end
  end.

(** [MIN_UNTIL]: as above, but the tail is tried first. *)
Fixpoint min_until (body : Matcher) (lo : N) (hi : option N) (fuel : nat)
    (count : N) (last : option nat) (prev : option ascii) (s : str) (i : nat)
    (k : K) : option nat :=
  match fuel with
  | 0 => None
  | S fuel' =>
      if (count <? lo)%N then
        body prev s i (fun p' s' i' => min_until body lo hi fuel' (count + 1) last p' s' i' k)
      else
        match k prev s i with
        | Some j => Some j
        | None =>
            if below count hi && negb (same_place last i) then
              body prev s i
                (fun p' s' i' => min_until body lo hi fuel' (count + 1) (Some i) p' s' i' k)
            else None
        end
  end.

Fixpoint matcher (r : regex) : Matcher :=
  fun prev s i k =>
    match r with
    | EMPTY => k prev s i
    | LITERAL c => one (Ascii.eqb c) prev s i k
    | ANY => one (fun c => negb (Ascii.eqb c (ascii_of_nat 10))) prev s i k
    | IN negate set => one (fun c => xorb negate (in_set set c)) prev s i k
    | AT a => if at_ok a prev s then k prev s i else None
    | SEQ r1 r2 => matcher r1 prev s i (fun p' s' i' => matcher r2 p' s' i' k)
    | BRANCH r1 r2 =>
        match matcher r1 prev s i k with
        | Some j => Some j
        | None => matcher r2 prev s i k
        end
    | MAX_REPEAT lo hi r1 =>
        max_until (matcher r1) lo hi (N.to_nat lo + length s + 2) 0 None prev s i k
    | MIN_REPEAT lo hi r1 =>
        min_until (matcher r1) lo hi (N.to_nat lo + length s + 2) 0 None prev s i k
    | SUBPATTERN r1 => matcher r1 prev s i k
    end.

(** The end of a match: under [must_advance] an empty match at the
    starting position [start] does not count. *)
Definition accept (must_advance : bool) (start : nat) : K :=
  fun _ _ j => if must_advance && (j =? start)%nat then None else Some j.

(** [search]: the first position from [i] on where the pattern matches. *)
Fixpoint search_from (r : regex) (must_advance : bool) (start : nat)
    (prev : option ascii) (s : str) (i : nat) : option Match :=
  match matcher r prev s i (accept must_advance start) with
  | Some j => Some (mkMatch i j)
  | None =>
      match s with
      | [] => None
      | c :: s' => search_from r must_advance start (Some c) s' (S i)
      end
  end.

Definition char_before (string : str) (pos : nat) : option ascii :=
  match pos with
  | 0 => None
  | S p => nth_error string p
  end.

Definition search (r : regex) (string : str) (pos : nat) (must_advance : bool)
  : option Match :=
  search_from r must_advance pos (char_before string pos) (skipn pos string) pos.

(** The scan of [pattern_subx] in [_sre.c]: search from the end of the
    last match; after an empty match the next one must advance. *)
Fixpoint scan (fuel : nat) (r : regex) (string : str) (pos : nat)
    (must_advance : bool) : list Match :=
  match fuel with
  | 0 => []
  | S fuel' =>
      match search r string pos must_advance with
      | None => []
      | Some m => m :: scan fuel' r string (m_end m) (m_end m =? m_start m)%nat
      end
  end.

Definition finditer (r : regex) (string : str) : exn + list Match :=
  inr (scan (2 * length string + 2) r string 0 false).

(** [repr] of a compiled pattern is not modelled beyond its prefix. *)
Definition pattern_repr (r : regex) : str := "re.compile(...)"%str.

End PyRe.

(** A stand-in for [faker] with which the program can be run: the
    generator is a counter and each provider returns a fixed value, the
    word provider one of three words in turn. *)
Module StubFaker.

Definition word (g : nat) : str :=
  match g mod 3 with
  | 0 => "alpha"
  | 1 => "beta"
  | _ => "gamma"
  end.

Definition fixed (s : str) (g : nat) : str * nat := (s, S g).

End StubFaker.

#[export] Instance stub_faker : Faker := {
  Rng := nat;
  fake_email := StubFaker.fixed "user@example.org";
  fake_phone_number := StubFaker.fixed "555-0100";
  fake_date := StubFaker.fixed "1970-01-01";
  fake_name := StubFaker.fixed "Jane Doe";
  fake_address := StubFaker.fixed "1 Main Street";
  fake_credit_card_full := StubFaker.fixed "0000 0000 0000 0000";
  fake_word := fun g => (StubFaker.word g, S g)
}.

(** ** Vocabulary *)

(** [m.group()]: the text of a match. *)
Definition matched (string : str) (m : Match) : str :=
  slice string (m_start m) (m_end m).

(** The text outside the matches, piece by piece: from [pos] to the first
    match, between one match and the next, after the last. *)
Fixpoint gaps (string : str) (pos : nat) (ms : list Match) : list str :=
  match ms with
  | [] => [skipn pos string]
  | m :: ms' => slice string pos (m_start m) :: gaps string (m_end m) ms'
  end.

(** [weave [g0; g1; ...; gn] [x1; ...; xn]] is [g0 x1 g1 ... xn gn]. *)
Fixpoint weave (gs xs : list str) : str :=
  match gs, xs with
  | g :: gs', x :: xs' => g ++ x ++ weave gs' xs'
  | g :: _, [] => g
  | [], _ => []
  end.

(** The category labels that [generate_fake_data] knows. *)
Definition labels : list str :=
  ["email"; "phone"; "date"; "name"; "address"; "credit_card"].

Section Vocabulary.

Context {RE : Re} {FK : Faker}.

(** [n] calls of [c], one after the other. *)
Fixpoint draws (c : M str) (n : nat) : M (list str) :=
  match n with
  | 0 => ret []
  | S n' => x <- c ;; xs <- draws c n' ;; ret (x :: xs)
  end.

(** The table of the specification: which provider a category key
    selects. *)
Inductive category_provider : str -> (Rng -> str * Rng) -> Prop :=
| key_email : category_provider "email" fake_email
| key_phone : category_provider "phone" fake_phone_number
| key_date : category_provider "date" fake_date
| key_name : category_provider "name" fake_name
| key_address : category_provider "address" fake_address
| key_credit_card : category_provider "credit_card" fake_credit_card_full
| key_other : forall key, ~ In key labels -> category_provider key fake_word.

(** [re.compile] returns a pattern for the spec or raises [re.error]:
    the two outcomes that the loop of [sanitize_text] handles. *)
Definition handled (pattern_str : str) : Prop :=
  match re_compile pattern_str with
  | inr _ | inl (re_error _) => True
  | inl _ => False
  end.

(** What one pattern makes of a text when every match is replaced by
    [replacement]. *)
Definition replaced (text : str) (pattern : Pattern) (replacement : str) : str :=
  match finditer pattern text with
  | inr ms => weave (gaps text 0 ms) (map (fun _ => replacement) ms)
  | inl _ => text
  end.

(** No pattern of the list has a match other than empty ones in [text]. *)
Definition no_retrigger (patterns : list str) (text : str) : Prop :=
  forall pattern_str pattern ms,
    In pattern_str patterns ->
    re_compile pattern_str = inr pattern ->
    finditer pattern text = inr ms ->
    Forall (fun m => m_start m = m_end m) ms.

(** The outcome of a computation does not depend on the state it is
    run in. *)
Definition insensitive {A} (c : M A) : Prop :=
  forall st1 st2, fst (c st1) = fst (c st2).

(** Outcome and generator do not depend on the records logged so far. *)
Definition log_blind {A} (c : M A) : Prop :=
  forall st1 st2,
    rng st1 = rng st2 ->
    fst (c st1) = fst (c st2) /\ rng (snd (c st1)) = rng (snd (c st2)).

End Vocabulary.

(** The default patterns of the command line ([main.py], lines 116-117):
    email, phone, date, name. *)
Definition email_pattern : str := "\b[A-Za-z0-9._%+-]+@[A-Za-z0-9.-]+\.[A-Z|a-z]{2,7}\b".
Definition phone_pattern : str := "\d{3}-\d{3}-\d{4}".
Definition date_pattern : str := "\d{1,2}[-/]\d{1,2}[-/]\d{2,4}".
Definition name_pattern : str := "\b[A-Z][a-z]+\s[A-Z][a-z]+\b".

(** What [PyRe] compiles a spec to, and the matches it finds. *)
Definition compiled (pattern_str : str) : PyRe.regex :=
  match PyRe.parse pattern_str with
  | inr r => r
  | inl _ => PyRe.EMPTY
  end.

Definition found (pattern_str text : str) : list Match :=
  match PyRe.finditer (compiled pattern_str) text with
  | inr ms => ms
  | inl _ => []
  end.

(** A state to start from: the stand-in generator at zero, nothing logged. *)
Definition st0 : State (FK := stub_faker) := mkState 0 [].

(** ** More vocabulary *)

(** [t] is [s] with some characters left out. *)
Inductive subsequence : str -> str -> Prop :=
| sub_nil : subsequence [] []
| sub_skip : forall c t s, subsequence t s -> subsequence t (c :: s)
| sub_keep : forall c t s, subsequence t s -> subsequence (c :: t) (c :: s).

(** The number of characters inside the matches. *)
Definition total_matched (ms : list Match) : nat :=
  list_sum (map (fun m => m_end m - m_start m) ms).

(** ** The boundary: files, standard streams, exit

    [detect_encoding], [read_text_file], [write_text_file] and [main]
    ([main.py], lines 14-48 and 123-150).  The operating system and
    [chardet] are an interface; [main] is taken from the point where
    [parser.parse_args()] has returned the namespace. *)

Abbreviation bytes := (list byte).

(** What the boundary can see raised: [FileNotFoundError] and the other
    subclasses of [Exception]. *)
Inductive error : Type :=
| FileNotFoundError (msg : str)
| Other (e : exn).

(** [SystemExit] is not a subclass of [Exception]: [except Exception]
    does not catch it. *)
Inductive raised : Type :=
| Error (e : error)
| SystemExit (code : nat).

(** [str(e)] *)
Definition error_str (e : error) : str :=
  match e with
  | FileNotFoundError msg => msg
  | Other e => exn_str e
  end.

(** The operating system and [chardet], as the program uses them:
    [open(path, 'rb')] and [read]; [open(path, 'r', encoding=...)] and
    [read]; [open(path, 'w', encoding=...)] and [write];
    [os.path.exists]; [sys.stdin.isatty()] and [sys.stdin.read()];
    [print]; [chardet.detect(raw)['encoding']].  Each can raise an
    [Exception]. *)
Class OS : Type := {
  World : Type;
  open_read_bytes : str -> World -> error + bytes;
  open_read_text : str -> str -> World -> error + str;
  open_write_text : str -> str -> str -> World -> (error + unit) * World;
  os_path_exists : str -> World -> bool;
  stdin_isatty : World -> bool;
  stdin_read : World -> (error + str) * World;
  print : str -> World -> (error + unit) * World;
  chardet_detect : bytes -> error + option str
}.

(** The namespace that [setup_argparse] describes ([main.py], lines
    111-121). *)
Record Namespace : Type := mkNamespace {
  args_input : option str;
  args_output : option str;
  args_patterns : list str;
  args_replacement : str;
  args_custom_replacement : option str
}.

(** The defaults of the parser. *)
Definition default_namespace : Namespace :=
  mkNamespace None None
    [email_pattern; phone_pattern; date_pattern; name_pattern] "remove" None.

Section Boundary.

Context {RE : Re} {FK : Faker} {SYS : OS}.

(** A running process: the world outside, and the state of the engine. *)
Record Process : Type := mkProcess { world : World; engine : State }.

Definition IO (A : Type) : Type := Process -> (raised + A) * Process.

Definition io_ret {A} (a : A) : IO A := fun p => (inr a, p).

Definition io_bind {A B} (c : IO A) (k : A -> IO B) : IO B :=
  fun p =>
    match c p with
    | (inr a, p') => k a p'
    | (inl r, p') => (inl r, p')
    end.

(** [sys.exit(code)] *)
Definition sys_exit {A} (code : nat) : IO A := fun p => (inl (SystemExit code), p).

(** [try: c  except Exception as e: h e] *)
Definition io_try {A} (c : IO A) (h : error -> IO A) : IO A :=
  fun p =>
    match c p with
    | (inl (Error e), p') => h e p'
    | other => other
    end.

Definition failing {A} (r : error + A) : raised + A :=
  match r with
  | inl e => inl (Error e)
  | inr a => inr a
  end.

(** A call that reads the world. *)
Definition os_get {A} (f : World -> error + A) : IO A :=
  fun p => (failing (f (world p)), p).

(** A call that changes the world. *)
Definition os_do {A} (f : World -> (error + A) * World) : IO A :=
  fun p =>
    let (r, w) := f (world p) in
    (failing r, mkProcess w (engine p)).

(** A computation of the engine, run inside the process. *)
Definition run_engine {A} (c : M A) : IO A :=
  fun p =>
    let (r, st) := c (engine p) in
    (match r with
     | inl e => inl (Error (Other e))
     | inr a => inr a
     end, mkProcess (world p) st).

Definition io_log (l : levelname) (msg : str) : IO unit := run_engine (logging l msg).

Notation "'let*' x := c 'in' k" := (io_bind c (fun x => k))
  (at level 10, x name, c at level 100, k at level 200).

(** [main.py], lines 14-26. *)
Definition detect_encoding (file_path : str) : IO str :=
  io_try
    (let* raw := os_get (open_read_bytes file_path) in
     let* encoding := os_get (fun _ => chardet_detect raw) in
     match encoding with
     | Some (c :: e) => io_ret (c :: e)
     | _ => io_ret "utf-8"
     end)
    (fun e =>
       let* _ := io_log ERROR ("Error detecting encoding for " ++ file_path ++ ": " ++ error_str e) in
       io_ret "utf-8").

(** [main.py], lines 28-39. *)
Definition read_text_file (file_path : str) : IO str :=
  io_try
    (let* encoding := detect_encoding file_path in
     os_get (open_read_text file_path encoding))
    (fun e =>
       match e with
       | FileNotFoundError _ =>
           let* _ := io_log ERROR ("File not found: " ++ file_path) in
           sys_exit 1
       | Other _ =>
           let* _ := io_log ERROR ("Error reading file " ++ file_path ++ ": " ++ error_str e) in
           sys_exit 1
       end).

(** [main.py], lines 41-48. *)
Definition write_text_file (file_path content encoding : str) : IO unit :=
  io_try
    (os_do (open_write_text file_path content encoding))
    (fun e =>
       let* _ := io_log ERROR ("Error writing to file " ++ file_path ++ ": " ++ error_str e) in
       sys_exit 1).

(** The input of [main], lines 128-140. *)
Definition main_input (args : Namespace) : IO str :=
  match args_input args with
  | Some (c :: path) =>
      if (c :: path) == "-" then
        let* tty := os_get (fun w => inr (stdin_isatty w)) in
        if tty : bool then
          let* _ := io_log ERROR "No input provided via stdin." in
          sys_exit 1
        else os_do stdin_read
      else
        let* present := os_get (fun w => inr (os_path_exists (c :: path) w)) in
        if present : bool then read_text_file (c :: path)
        else
          let* _ := io_log ERROR ("Input file does not exist: " ++ c :: path) in
          sys_exit 1
  | _ =>
      let* _ := io_log ERROR "Input is required either via --input or piped stdin." in
      sys_exit 1
  end.

(** The output of [main], lines 145-150. *)
Definition main_output (args : Namespace) (sanitized_text : str) : IO unit :=
  match args_output args with
  | Some (c :: path) =>
      if (c :: path) == "-" then os_do (print sanitized_text)
      else write_text_file (c :: path) sanitized_text "utf-8"
  | _ => os_do (print sanitized_text)
  end.

(** [main.py], lines 123-150, from the point where [parse_args] has
    returned [args]; what [parse_args] does itself, its exits with
    status 0 and 2 included, is not modelled. *)
Definition main (args : Namespace) : IO unit :=
  let* text := main_input args in
  let* sanitized_text :=
    run_engine (sanitize_text text (args_patterns args) (args_replacement args)
                  (args_custom_replacement args)) in
  main_output args sanitized_text.

End Boundary.

(** A stand-in for the operating system: files are a list of paths and
    contents, standard input is a string, standard output collects what
    is printed, one line each.  Bytes decode one to one, and [chardet]
    always answers ascii. *)
Module StubOS.

Record world : Type := mkWorld {
  files : list (str * str);
  tty : bool;
  stdin : str;
  stdout : list str
}.

Fixpoint lookup (path : str) (fs : list (str * str)) : option str :=
  match fs with
  | [] => None
  | (name, content) :: fs' => if name == path then Some content else lookup path fs'
  end.

Definition read (path : str) (w : world) : error + str :=
  match lookup path (files w) with
  | Some content => inr content
  | None => inl (FileNotFoundError ("No such file or directory: " ++ path))
  end.

Definition read_bytes (path : str) (w : world) : error + bytes :=
  match read path w with
  | inr content => inr (map byte_of_ascii content)
  | inl e => inl e
  end.

Definition write (path content encoding : str) (w : world) : (error + unit) * world :=
  (inr tt, mkWorld ((path, content) :: files w) (tty w) (stdin w) (stdout w)).

Definition read_stdin (w : world) : (error + str) * world :=
  (inr (stdin w), mkWorld (files w) (tty w) [] (stdout w)).

Definition print (s : str) (w : world) : (error + unit) * world :=
  (inr tt, mkWorld (files w) (tty w) (stdin w) (stdout w ++ [s])).

End StubOS.

#[export] Instance stub_os : OS := {
  World := StubOS.world;
  open_read_bytes := StubOS.read_bytes;
  open_read_text := fun path _ => StubOS.read path;
  open_write_text := StubOS.write;
  os_path_exists := fun path w =>
                      match StubOS.lookup path (StubOS.files w) with
                      | Some _ => true
                      | None => false
                      end;
  stdin_isatty := StubOS.tty;
  stdin_read := StubOS.read_stdin;
  print := StubOS.print;
  chardet_detect := fun _ => inr (Some "ascii")
}.

(** * Facts about the model of [re] *)

Module PyReFacts.

Import PyRe.

(** ** Matches lie in the text

    A matcher hands to its continuation a later position of the same
    text; so every match that the scan reports lies in the text, at or
    after the end of the match before it. *)

Definition sound (mt : Matcher) : Prop :=
  forall prev s i k j,
    mt prev s i k = Some j ->
    exists p' s' i',
      k p' s' i' = Some j /\ (i <= i')%nat /\ (i' + length s' = i + length s)%nat.

Lemma one_sound (ok : ascii -> bool) : sound (one ok).
Proof.
  intros prev [|c s] i k j H; simpl in H; [discriminate|].
  destruct (ok c); [|discriminate].
  exists (Some c), s, (S i). simpl. repeat split; [assumption|lia|lia].
Qed.

Lemma sound_then (mt : Matcher) (next : K -> K) :
  sound mt ->
  (forall k prev s i j,
      next k prev s i = Some j ->
      exists p' s' i',
        k p' s' i' = Some j /\ (i <= i')%nat /\ (i' + length s' = i + length s)%nat) ->
  forall prev s i k j,
    mt prev s i (next k) = Some j ->
    exists p' s' i',
      k p' s' i' = Some j /\ (i <= i')%nat /\ (i' + length s' = i + length s)%nat.
Proof.
  intros Hmt Hnext prev s i k j H.
  apply Hmt in H. destruct H as (p1 & s1 & i1 & H1 & Hle & Hlen).
  apply Hnext in H1.
  destruct H1 as (p2 & s2 & i2 & H2 & Hle2 & Hlen2).
  exists p2, s2, i2. repeat split; [assumption|lia|lia].
Qed.

Lemma max_until_sound (body : Matcher) (lo : N) (hi : option N) :
  sound body ->
  forall fuel count last, sound (max_until body lo hi fuel count last).
Proof.
  intros Hbody. induction fuel as [|fuel IH]; intros count last prev s i k j H.
  - discriminate.
  - simpl in H. destruct (count <? lo)%N.
    + apply (sound_then _ (fun k p' s' i' =>
               max_until body lo hi fuel (count + 1) last p' s' i' k)) in H;
        [assumption|assumption|].
      intros k0 p1 s1 i1 j1 H1. apply IH in H1. exact H1.
    + destruct (below count hi && negb (same_place last i)).
      * destruct (body prev s i _) as [j'|] eqn:Hb.
        -- inversion H; subst j'.
           apply (sound_then _ (fun k p' s' i' =>
                    max_until body lo hi fuel (count + 1) (Some i) p' s' i' k)) in Hb;
             [assumption|assumption|].
           intros k0 p1 s1 i1 j1 H1. apply IH in H1. exact H1.
        -- exists prev, s, i. repeat split; [assumption|lia].
      * exists prev, s, i. repeat split; [assumption|lia].
Qed.

Lemma min_until_sound (body : Matcher) (lo : N) (hi : option N) :
  sound body ->
  forall fuel count last, sound (min_until body lo hi fuel count last).
Proof.
  intros Hbody. induction fuel as [|fuel IH]; intros count last prev s i k j H.
  - discriminate.
  - simpl in H. destruct (count <? lo)%N.
    + apply (sound_then _ (fun k p' s' i' =>
               min_until body lo hi fuel (count + 1) last p' s' i' k)) in H;
        [assumption|assumption|].
      intros k0 p1 s1 i1 j1 H1. apply IH in H1. exact H1.
    + destruct (k prev s i) as [j'|] eqn:Hk.
      * inversion H; subst j'. exists prev, s, i. repeat split; [assumption|lia].
      * destruct (below count hi && negb (same_place last i)); [|discriminate].
        apply (sound_then _ (fun k p' s' i' =>
                 min_until body lo hi fuel (count + 1) (Some i) p' s' i' k)) in H;
          [assumption|assumption|].
        intros k0 p1 s1 i1 j1 H1. apply IH in H1. exact H1.
Qed.

Lemma matcher_sound (r : regex) : sound (matcher r).
Proof.
  induction r as [|c| |negate set|a|r1 IH1 r2 IH2|r1 IH1 r2 IH2
                 |lo hi r1 IH1|lo hi r1 IH1|r1 IH1];
    intros prev s i k j H; simpl in H.
  - exists prev, s, i. repeat split; [assumption|lia].
  - apply one_sound in H. exact H.
  - apply one_sound in H. exact H.
  - apply one_sound in H. exact H.
  - destruct (at_ok a prev s); [|discriminate].
    exists prev, s, i. repeat split; [assumption|lia].
  - apply (sound_then _ (fun k p' s' i' => matcher r2 p' s' i' k)) in H;
      [assumption|assumption|].
    intros k0 p1 s1 i1 j1 H1. apply IH2 in H1. exact H1.
  - destruct (matcher r1 prev s i k) as [j'|] eqn:H1.
    + inversion H; subst j'. apply IH1 in H1. exact H1.
    + apply IH2 in H. exact H.
  - apply (max_until_sound _ lo hi IH1) in H. exact H.
  - apply (min_until_sound _ lo hi IH1) in H. exact H.
  - apply IH1 in H. exact H.
Qed.

(** ** The fuel is enough

    Fuel only makes the recursions terminate.  A repetition is given more
    rounds than it can make, and the scan more steps than there are
    matches: with any larger amount the result is the same. *)

(** [s'] at [i'] is reached from [s] at [i] by reading on. *)
Definition later (s : str) (i : nat) (s' : str) (i' : nat) : Prop :=
  (i <= i' /\ i' + length s' = i + length s)%nat.

(** A matcher calls its continuation on later positions only. *)
Definition local (mt : Matcher) : Prop :=
  forall prev s i k1 k2,
    (forall p' s' i', later s i s' i' -> k1 p' s' i' = k2 p' s' i') ->
    mt prev s i k1 = mt prev s i k2.

(** The rounds a repetition can still make. *)
Definition need (lo count : N) (last : option nat) (s : str) (i : nat) : nat :=
  if (count <? lo)%N then N.to_nat (lo - count) + length s + 2
  else if same_place last i then 1
  else length s + 2.

Lemma later_refl (s : str) (i : nat) : later s i s i.
Proof. split; lia. Qed.

Lemma later_trans {s : str} {i : nat} {s1 : str} {i1 : nat} {s2 : str} {i2 : nat} :
  later s i s1 i1 -> later s1 i1 s2 i2 -> later s i s2 i2.
Proof. unfold later. lia. Qed.

Lemma one_local (ok : ascii -> bool) : local (one ok).
Proof.
  intros prev [|c s] i k1 k2 H; simpl; [reflexivity|].
  destruct (ok c); [|reflexivity]. apply H. unfold later. simpl. lia.
Qed.

Lemma max_until_local (body : Matcher) (lo : N) (hi : option N) :
  local body ->
  forall fuel count last, local (max_until body lo hi fuel count last).
Proof.
  intros Hbody. induction fuel as [|fuel IH]; intros count last prev s i k1 k2 H.
  - reflexivity.
  - simpl. destruct (count <? lo)%N.
    + apply Hbody. intros p' s' i' Hl. apply IH.
      intros p2 s2 i2 Hl2. apply H. exact (later_trans Hl Hl2).
    + rewrite (H prev s i (later_refl s i)).
      destruct (below count hi && negb (same_place last i)); [|reflexivity].
      rewrite (Hbody prev s i _
                 (fun p' s' i' => max_until body lo hi fuel (count + 1) (Some i) p' s' i' k2));
        [reflexivity|].
      intros p' s' i' Hl. apply IH.
      intros p2 s2 i2 Hl2. apply H. exact (later_trans Hl Hl2).
Qed.

Lemma min_until_local (body : Matcher) (lo : N) (hi : option N) :
  local body ->
  forall fuel count last, local (min_until body lo hi fuel count last).
Proof.
  intros Hbody. induction fuel as [|fuel IH]; intros count last prev s i k1 k2 H.
  - reflexivity.
  - simpl. destruct (count <? lo)%N.
    + apply Hbody. intros p' s' i' Hl. apply IH.
      intros p2 s2 i2 Hl2. apply H. exact (later_trans Hl Hl2).
    + rewrite (H prev s i (later_refl s i)).
      destruct (k2 prev s i); [reflexivity|].
      destruct (below count hi && negb (same_place last i)); [|reflexivity].
      apply Hbody. intros p' s' i' Hl. apply IH.
      intros p2 s2 i2 Hl2. apply H. exact (later_trans Hl Hl2).
Qed.

Lemma matcher_local (r : regex) : local (matcher r).
Proof.
  induction r as [|c| |negate set|a|r1 IH1 r2 IH2|r1 IH1 r2 IH2
                 |lo hi r1 IH1|lo hi r1 IH1|r1 IH1];
    intros prev s i k1 k2 H; simpl.
  - apply H. apply later_refl.
  - apply one_local. exact H.
  - apply one_local. exact H.
  - apply one_local. exact H.
  - destruct (at_ok a prev s); [|reflexivity]. apply H. apply later_refl.
  - apply IH1. intros p' s' i' Hl. apply IH2.
    intros p2 s2 i2 Hl2. apply H. exact (later_trans Hl Hl2).
  - rewrite (IH1 prev s i k1 k2 H), (IH2 prev s i k1 k2 H). reflexivity.
  - apply (max_until_local _ lo hi IH1). exact H.
  - apply (min_until_local _ lo hi IH1). exact H.
  - apply IH1. exact H.
Qed.

Lemma need_next {lo count : N} {last last' : option nat} {s : str} {i : nat}
    {s' : str} {i' : nat} {fuel : nat} :
  later s i s' i' ->
  (need lo count last s i <= S fuel)%nat ->
  ((count <? lo)%N = true /\ last' = last
   \/ (count <? lo)%N = false /\ same_place last i = false /\ last' = Some i) ->
  (need lo (count + 1) last' s' i' <= fuel)%nat.
Proof.
  unfold later, need. intros [Hle Hlen] Hneed Hcase.
  destruct Hcase as [[Hlt ->]|(Hlt & Hsame & ->)]; rewrite Hlt in Hneed.
  - apply N.ltb_lt in Hlt.
    destruct (count + 1 <? lo)%N eqn:Hlt'.
    + apply N.ltb_lt in Hlt'. lia.
    + destruct (same_place last i'); lia.
  - rewrite Hsame in Hneed. apply N.ltb_ge in Hlt.
    assert (Hlt' : (count + 1 <? lo)%N = false) by (apply N.ltb_ge; lia).
    rewrite Hlt'. simpl. destruct (i =? i')%nat eqn:E; [lia|].
    apply Nat.eqb_neq in E. lia.
Qed.

Lemma max_until_fuel (body : Matcher) (lo : N) (hi : option N) :
  local body ->
  forall f1 f2 count last prev s i k,
    (need lo count last s i <= f1)%nat ->
    (need lo count last s i <= f2)%nat ->
    max_until body lo hi f1 count last prev s i k
    = max_until body lo hi f2 count last prev s i k.
Proof.
  intros Hbody. induction f1 as [|f1 IH]; intros f2 count last prev s i k H1 H2.
  - exfalso. unfold need in H1.
    destruct (count <? lo)%N; [lia|]. destruct (same_place last i); lia.
  - destruct f2 as [|f2].
    { exfalso. unfold need in H2.
      destruct (count <? lo)%N; [lia|]. destruct (same_place last i); lia. }
    simpl. destruct (count <? lo)%N eqn:Hlt.
    + apply Hbody. intros p' s' i' Hl.
      apply IH; apply (need_next (last := last) (s := s) (i := i)); auto.
    + destruct (same_place last i) eqn:Hsame.
      * rewrite andb_false_r. reflexivity.
      * rewrite (Hbody prev s i _
                   (fun p' s' i' => max_until body lo hi f2 (count + 1) (Some i) p' s' i' k));
          [reflexivity|].
        intros p' s' i' Hl.
        apply IH; apply (need_next (last := last) (s := s) (i := i)); auto.
Qed.

Lemma min_until_fuel (body : Matcher) (lo : N) (hi : option N) :
  local body ->
  forall f1 f2 count last prev s i k,
    (need lo count last s i <= f1)%nat ->
    (need lo count last s i <= f2)%nat ->
    min_until body lo hi f1 count last prev s i k
    = min_until body lo hi f2 count last prev s i k.
Proof.
  intros Hbody. induction f1 as [|f1 IH]; intros f2 count last prev s i k H1 H2.
  - exfalso. unfold need in H1.
    destruct (count <? lo)%N; [lia|]. destruct (same_place last i); lia.
  - destruct f2 as [|f2].
    { exfalso. unfold need in H2.
      destruct (count <? lo)%N; [lia|]. destruct (same_place last i); lia. }
    simpl. destruct (count <? lo)%N eqn:Hlt.
    + apply Hbody. intros p' s' i' Hl.
      apply IH; apply (need_next (last := last) (s := s) (i := i)); auto.
    + destruct (k prev s i); [reflexivity|].
      destruct (same_place last i) eqn:Hsame.
      * rewrite andb_false_r. reflexivity.
      * destruct (below count hi); [|reflexivity]. simpl.
        apply Hbody. intros p' s' i' Hl.
        apply IH; apply (need_next (last := last) (s := s) (i := i)); auto.
Qed.

(** More rounds than [matcher] allows a repetition change nothing. *)
Lemma repeat_fuel_enough (r : regex) (lo : N) (hi : option N) (extra : nat)
    prev s i k :
  max_until (matcher r) lo hi (N.to_nat lo + length s + 2 + extra) 0 None prev s i k
  = matcher (MAX_REPEAT lo hi r) prev s i k
  /\ min_until (matcher r) lo hi (N.to_nat lo + length s + 2 + extra) 0 None prev s i k
     = matcher (MIN_REPEAT lo hi r) prev s i k.
Proof.
  assert (Hneed : (need lo 0 None s i <= N.to_nat lo + length s + 2)%nat).
  { unfold need. destruct (0 <? lo)%N; simpl; lia. }
  split; simpl.
  - apply max_until_fuel; [apply matcher_local|lia|exact Hneed].
  - apply min_until_fuel; [apply matcher_local|lia|exact Hneed].
Qed.

Lemma search_from_bounds (r : regex) (must_advance : bool) (start : nat) :
  forall s prev i m,
    search_from r must_advance start prev s i = Some m ->
    (i <= m_start m /\ m_start m <= m_end m /\ m_end m <= i + length s)%nat.
Proof.
  induction s as [|c s IH]; intros prev i m H; simpl in H.
  - destruct (matcher r prev [] i _) as [j|] eqn:Hm; [|discriminate].
    inversion H; subst m; simpl.
    apply matcher_sound in Hm. destruct Hm as (p' & s' & i' & Hk & Hle & Hlen).
    unfold accept in Hk. destruct (_ && _); [discriminate|].
    inversion Hk; subst j. simpl in Hlen. lia.
  - destruct (matcher r prev (c :: s) i _) as [j|] eqn:Hm.
    + inversion H; subst m; simpl.
      apply matcher_sound in Hm. destruct Hm as (p' & s' & i' & Hk & Hle & Hlen).
      unfold accept in Hk. destruct (_ && _); [discriminate|].
      inversion Hk; subst j. simpl in Hlen. simpl. lia.
    + apply IH in H. simpl. lia.
Qed.

Lemma search_bounds (r : regex) (string : str) (pos : nat) (must_advance : bool) m :
  (pos <= length string)%nat ->
  search r string pos must_advance = Some m ->
  (pos <= m_start m /\ m_start m <= m_end m /\ m_end m <= length string)%nat.
Proof.
  intros Hpos H. unfold search in H. apply search_from_bounds in H.
  rewrite length_skipn in H. lia.
Qed.

Lemma scan_ordered (r : regex) (string : str) :
  forall fuel pos must_advance,
    (pos <= length string)%nat ->
    matches_from pos (length string) (scan fuel r string pos must_advance).
Proof.
  induction fuel as [|fuel IH]; intros pos must_advance Hpos; simpl.
  - exact Hpos.
  - destruct (search r string pos must_advance) as [m|] eqn:Hs; simpl.
    + apply search_bounds in Hs; [|exact Hpos].
      destruct Hs as (H1 & H2 & H3). repeat split; [exact H1|exact H2|].
      apply IH. exact H3.
    + exact Hpos.
Qed.

Lemma search_from_advances (r : regex) (start : nat) :
  forall s prev i m,
    (start <= i)%nat ->
    search_from r true start prev s i = Some m ->
    (start < m_end m)%nat.
Proof.
  assert (Hacc : forall prev s i j,
             (start <= i)%nat ->
             matcher r prev s i (accept true start) = Some j -> (start < j)%nat).
  { intros prev s i j Hi Hm.
    apply matcher_sound in Hm. destruct Hm as (p' & s' & i' & Hk & Hle & Hlen).
    unfold accept in Hk. simpl in Hk.
    destruct (i' =? start)%nat eqn:E; [discriminate|].
    apply Nat.eqb_neq in E. inversion Hk; subst j. lia. }
  induction s as [|c s IH]; intros prev i m Hi H; simpl in H.
  - destruct (matcher r prev [] i _) as [j|] eqn:Hm; [|discriminate].
    inversion H; subst m; simpl. exact (Hacc _ _ _ _ Hi Hm).
  - destruct (matcher r prev (c :: s) i _) as [j|] eqn:Hm.
    + inversion H; subst m; simpl. exact (Hacc _ _ _ _ Hi Hm).
    + apply (IH (Some c) (S i)); [lia|exact H].
Qed.

(** The steps the scan can still make from [pos]. *)
Definition steps (string : str) (pos : nat) (must_advance : bool) : nat :=
  2 * (length string - pos) + (if must_advance then 0 else 1).

Lemma scan_fuel (r : regex) (string : str) :
  forall f1 f2 pos must_advance,
    (pos <= length string)%nat ->
    (steps string pos must_advance < f1)%nat ->
    (steps string pos must_advance < f2)%nat ->
    scan f1 r string pos must_advance = scan f2 r string pos must_advance.
Proof.
  induction f1 as [|f1 IH]; intros f2 pos must_advance Hpos H1 H2; [lia|].
  destruct f2 as [|f2]; [lia|]. simpl.
  destruct (search r string pos must_advance) as [m|] eqn:Hs; [|reflexivity].
  assert (Hadv : must_advance = true -> (pos < m_end m)%nat).
  { intros ->. unfold search in Hs.
    exact (search_from_advances r pos _ _ pos m (le_n pos) Hs). }
  apply search_bounds in Hs; [|exact Hpos]. destruct Hs as (Hb & He & Hn).
  assert (Hless : (steps string (m_end m) (m_end m =? m_start m)
                   < steps string pos must_advance)%nat).
  { unfold steps. destruct (m_end m =? m_start m)%nat eqn:E.
    - apply Nat.eqb_eq in E. destruct must_advance.
      + specialize (Hadv eq_refl). lia.
      + lia.
    - apply Nat.eqb_neq in E. destruct must_advance; lia. }
  f_equal. apply IH; [exact Hn|lia|lia].
Qed.

(** More steps than [finditer] allows the scan change nothing. *)
Lemma scan_fuel_enough (r : regex) (string : str) (extra : nat) :
  finditer r string = inr (scan (2 * length string + 2 + extra) r string 0 false).
Proof.
  unfold finditer. f_equal.
  apply scan_fuel; unfold steps; lia.
Qed.

Lemma finditer_ordered (r : regex) (string : str) (ms : list Match) :
  finditer r string = inr ms -> matches_from 0 (length string) ms.
Proof.
  unfold finditer. intros H. inversion H; subst ms.
  apply scan_ordered. lia.
Qed.

End PyReFacts.

(** [re] as modelled by [PyRe]. *)
#[export] Instance py_re : Re := {
  Pattern := PyRe.regex;
  re_compile := PyRe.parse;
  finditer := PyRe.finditer;
  pattern_repr := PyRe.pattern_repr;
  finditer_ordered := PyReFacts.finditer_ordered
}.

(** [re] as modelled, except that the scan of the one-character pattern
    [!] fails.  No scan of the modelled [re] raises, so the [except]
    branch of [apply_regex_replacement] (lines 76-78) never runs on it;
    this is an engine on which it runs for one pattern and not for the
    others. *)
Definition is_bang (r : PyRe.regex) : bool :=
  match r with
  | PyRe.LITERAL c => Ascii.eqb c "!"%char
  | _ => false
  end.

Definition flaky_finditer (r : PyRe.regex) (string : str) : exn + list Match :=
  if is_bang r then inl (Exception "scan failed") else PyRe.finditer r string.

Lemma flaky_finditer_ordered (r : PyRe.regex) (string : str) (ms : list Match) :
  flaky_finditer r string = inr ms -> matches_from 0 (length string) ms.
Proof.
  unfold flaky_finditer. destruct (is_bang r); [discriminate|].
  apply PyReFacts.finditer_ordered.
Qed.

Definition flaky_re : Re := {|
  Pattern := PyRe.regex;
  re_compile := PyRe.parse;
  finditer := flaky_finditer;
  pattern_repr := PyRe.pattern_repr;
  finditer_ordered := flaky_finditer_ordered
|}.

(** * Properties of the engine *)

(** ** Strings and splicing *)

Lemma str_eqb_refl (a : str) : (a == a) = true.
Proof.
  induction a as [|c a IH]; simpl; [reflexivity|].
  rewrite Ascii.eqb_refl. exact IH.
Qed.

Lemma str_eqb_eq (a b : str) : (a == b) = true <-> a = b.
Proof.
  split.
  - revert b. induction a as [|x a IH]; intros [|y b] H; simpl in H;
      try discriminate; [reflexivity|].
    apply andb_true_iff in H. destruct H as [Hc Hr].
    apply Ascii.eqb_eq in Hc. apply IH in Hr. congruence.
  - intros ->. apply str_eqb_refl.
Qed.

Lemma str_eqb_neq (a b : str) : a <> b -> (a == b) = false.
Proof.
  intros H. destruct (a == b) eqn:E; [|reflexivity].
  apply str_eqb_eq in E. contradiction.
Qed.

Lemma slice_split (string : str) (i j : nat) :
  i <= j -> skipn i string = slice string i j ++ skipn j string.
Proof.
  intros Hij. unfold slice.
  rewrite <- (firstn_skipn (j - i) (skipn i string)) at 1.
  rewrite skipn_skipn. replace (j - i + i) with j by lia. reflexivity.
Qed.

Lemma slice_empty (string : str) (i : nat) : slice string i i = [].
Proof. unfold slice. rewrite Nat.sub_diag. reflexivity. Qed.

(** A text is its gaps and its matches, woven. *)
Lemma text_is_woven (string : str) (n : nat) :
  forall ms pos,
    matches_from pos n ms ->
    skipn pos string = weave (gaps string pos ms) (map (matched string) ms).
Proof.
  induction ms as [|m ms IH]; intros pos H; simpl.
  - reflexivity.
  - simpl in H. destruct H as (Hb & He & Hrest).
    rewrite <- (IH _ Hrest). unfold matched.
    rewrite <- (slice_split string _ _ He). apply slice_split. exact Hb.
Qed.

Lemma weave_empty_matches (string : str) :
  forall ms pos,
    Forall (fun m => m_start m = m_end m) ms ->
    weave (gaps string pos ms) (map (fun _ => []) ms)
    = weave (gaps string pos ms) (map (matched string) ms).
Proof.
  induction ms as [|m ms IH]; intros pos H; simpl.
  - reflexivity.
  - inversion H as [|m' ms' Hm Hms]; subst.
    rewrite (IH _ Hms). unfold matched. rewrite Hm, slice_empty. reflexivity.
Qed.

Section Facts.

Context {RE : Re} {FK : Faker}.

(** ** The loop of [re.sub] *)

Lemma sub_from_replace_match (replacement string : str) :
  forall ms pos st,
    sub_from (fun m => replace_match m replacement) string pos ms st
    = (inr (weave (gaps string pos ms) (map (fun _ => replacement) ms)), st).
Proof.
  induction ms as [|m ms IH]; intros pos st; simpl.
  - reflexivity.
  - unfold bind, replace_match, ret. rewrite IH. reflexivity.
Qed.

Lemma sub_from_draws (c : M str) (string : str) :
  forall ms pos st,
    sub_from (fun _ => c) string pos ms st
    = (xs <- draws c (length ms) ;; ret (weave (gaps string pos ms) xs)) st.
Proof.
  induction ms as [|m ms IH]; intros pos st; simpl.
  - reflexivity.
  - unfold bind at 1 3 4. destruct (c st) as [[e|x] st1]; [reflexivity|].
    unfold bind at 1. rewrite IH. unfold bind at 1 2.
    destruct (draws c (length ms) st1) as [[e|xs] st2]; reflexivity.
Qed.

Lemma draws_draw (provider : Rng -> str * Rng) :
  forall n st, exists xs g,
    draws (draw provider) n st = (inr xs, mkState g (records st)).
Proof.
  induction n as [|n IH]; intros st; simpl.
  - exists [], (rng st). destruct st; reflexivity.
  - unfold bind, draw. destruct (provider (rng st)) as [x g1].
    destruct (IH (mkState g1 (records st))) as (xs & g & E).
    unfold draw in E. rewrite E. exists (x :: xs), g. reflexivity.
Qed.

(** ** [apply_regex_replacement] *)

Lemma apply_never_raises (text : str) (pattern : Pattern) (f : Match -> M str) st :
  exists t st', apply_regex_replacement text pattern f st = (inr t, st').
Proof.
  unfold apply_regex_replacement, try_except.
  destruct (re_sub pattern f text st) as [[e|t] st1].
  - unfold bind, logging, ret. eexists; eexists; reflexivity.
  - eexists; eexists; reflexivity.
Qed.

Lemma apply_replace_match (text : str) (pattern : Pattern) (replacement : str) st :
  exists st',
    apply_regex_replacement text pattern (fun m => replace_match m replacement) st
    = (inr (replaced text pattern replacement), st')
    /\ rng st' = rng st.
Proof.
  unfold apply_regex_replacement, try_except, re_sub, replaced, bind at 1, lift.
  destruct (finditer pattern text) as [e|ms].
  - unfold bind, logging, ret. eexists; split; reflexivity.
  - rewrite sub_from_replace_match. eexists; split; reflexivity.
Qed.

Lemma apply_replace_match_found (text : str) (pattern : Pattern) (replacement : str)
    (ms : list Match) st :
  finditer pattern text = inr ms ->
  apply_regex_replacement text pattern (fun m => replace_match m replacement) st
  = (inr (weave (gaps text 0 ms) (map (fun _ => replacement) ms)), st).
Proof.
  intros Hf.
  unfold apply_regex_replacement, try_except, re_sub, bind at 1, lift.
  rewrite Hf, sub_from_replace_match. reflexivity.
Qed.

(** Replacing matches that are all empty by nothing changes nothing. *)
Lemma replaced_empty_matches (text : str) (pattern : Pattern) :
  (forall ms, finditer pattern text = inr ms ->
              Forall (fun m => m_start m = m_end m) ms) ->
  replaced text pattern [] = text.
Proof.
  intros H. unfold replaced.
  destruct (finditer pattern text) as [e|ms] eqn:Hf; [reflexivity|].
  rewrite (weave_empty_matches text ms 0 (H ms eq_refl)).
  rewrite <- (text_is_woven text (length text) ms 0); [reflexivity|].
  exact (finditer_ordered _ _ _ Hf).
Qed.

End Facts.

Section Loop.

Context {RE : Re} {FK : Faker}.

(** ** The loop of [sanitize_text] *)

Lemma loop_remove (pattern_str : str) (patterns : list str) (cr : option str)
    (text : str) (pattern : Pattern) st :
  re_compile pattern_str = inr pattern ->
  sanitize_loop (pattern_str :: patterns) "remove" cr text st
  = (t <- apply_regex_replacement text pattern (fun m => replace_match m "") ;;
     sanitize_loop patterns "remove" cr t) st.
Proof. intros Hc. simpl. rewrite Hc. reflexivity. Qed.

Lemma loop_fake (pattern_str : str) (patterns : list str) (cr : option str)
    (text : str) (pattern : Pattern) st :
  re_compile pattern_str = inr pattern ->
  sanitize_loop (pattern_str :: patterns) "fake" cr text st
  = (t <- apply_regex_replacement text pattern (fun _ => generate_fake_data pattern_str) ;;
     sanitize_loop patterns "fake" cr t) st.
Proof. intros Hc. simpl. rewrite Hc. reflexivity. Qed.

Lemma loop_custom (pattern_str : str) (patterns : list str) (c : ascii) (r : str)
    (text : str) (pattern : Pattern) st :
  re_compile pattern_str = inr pattern ->
  sanitize_loop (pattern_str :: patterns) "custom" (Some (c :: r)) text st
  = (t <- apply_regex_replacement text pattern (fun m => replace_match m (c :: r)) ;;
     sanitize_loop patterns "custom" (Some (c :: r)) t) st.
Proof. intros Hc. simpl. rewrite Hc. reflexivity. Qed.

Lemma loop_custom_missing (pattern_str : str) (patterns : list str) (cr : option str)
    (text : str) (pattern : Pattern) st :
  re_compile pattern_str = inr pattern ->
  cr = None \/ cr = Some [] ->
  sanitize_loop (pattern_str :: patterns) "custom" cr text st
  = (logging ERROR
       "Custom replacement required but not provided for pattern: {pattern_str}" ;;;
     sanitize_loop patterns "custom" cr text) st.
Proof. intros Hc [-> | ->]; simpl; rewrite Hc; reflexivity. Qed.

Lemma loop_unknown_type (pattern_str : str) (patterns : list str) (rt : str)
    (cr : option str) (text : str) (pattern : Pattern) st :
  re_compile pattern_str = inr pattern ->
  ~ In rt ["remove"; "fake"; "custom"] ->
  sanitize_loop (pattern_str :: patterns) rt cr text st
  = (logging ERROR ("Invalid replacement type: " ++ rt ++ " - pattern: " ++ pattern_str) ;;;
     sanitize_loop patterns rt cr text) st.
Proof.
  intros Hc Hrt. simpl sanitize_loop. rewrite Hc.
  rewrite !str_eqb_neq; [reflexivity| | |];
    intros ->; apply Hrt; simpl; auto.
Qed.

Lemma loop_malformed (pattern_str : str) (patterns : list str) (rt : str)
    (cr : option str) (text : str) (msg : str) st :
  re_compile pattern_str = inl (re_error msg) ->
  sanitize_loop (pattern_str :: patterns) rt cr text st
  = (logging ERROR ("Invalid regex pattern: " ++ pattern_str ++ " - " ++ msg) ;;;
     sanitize_loop patterns rt cr text) st.
Proof. intros Hc. simpl. rewrite Hc. reflexivity. Qed.

(** The loop over a list in two parts: the second part starts from the
    text that the first part returns. *)
Lemma loop_app (rt : str) (cr : option str) (ps2 : list str) :
  forall ps1 text st,
    sanitize_loop (ps1 ++ ps2) rt cr text st
    = (t <- sanitize_loop ps1 rt cr text ;; sanitize_loop ps2 rt cr t) st.
Proof.
  induction ps1 as [|p ps1 IH]; intros text st.
  - reflexivity.
  - simpl. destruct (re_compile p) as [[msg|msg|msg]|pattern]; try reflexivity.
    + unfold bind, logging. apply IH.
    + destruct (rt == "remove"); [|destruct (rt == "fake"); [|destruct (rt == "custom")]].
      * unfold bind.
        destruct (apply_regex_replacement _ _ _ st) as [[e|t] st1]; [reflexivity|apply IH].
      * unfold bind.
        destruct (apply_regex_replacement _ _ _ st) as [[e|t] st1]; [reflexivity|apply IH].
      * destruct cr as [[|c r]|].
        -- unfold bind, logging. apply IH.
        -- unfold bind.
           destruct (apply_regex_replacement _ _ _ st) as [[e|t] st1]; [reflexivity|apply IH].
        -- unfold bind, logging. apply IH.
      * unfold bind, logging. apply IH.
Qed.


(** And only then. *)
Lemma loop_returned (rt : str) (cr : option str) :
  forall patterns text st t st',
    sanitize_loop patterns rt cr text st = (inr t, st') ->
    Forall handled patterns.
Proof.
  induction patterns as [|p ps IH]; intros text st t st' H.
  - constructor.
  - simpl in H. unfold handled at 1.
    assert (Hk : forall (c : M str),
               (exists t0 st0, c st = (inr t0, st0)) ->
               (x <- c ;; sanitize_loop ps rt cr x) st = (inr t, st') ->
               Forall handled ps).
    { intros c (t0 & st0 & E) Hb. unfold bind in Hb. rewrite E in Hb.
      exact (IH _ _ _ _ Hb). }
    destruct (re_compile p) as [[msg|msg|msg]|pattern] eqn:Hc.
    + constructor; [unfold handled; rewrite Hc; exact I|].
      unfold bind, logging in H. exact (IH _ _ _ _ H).
    + discriminate.
    + discriminate.
    + constructor; [unfold handled; rewrite Hc; exact I|].
      destruct (rt == "remove"); [|destruct (rt == "fake"); [|destruct (rt == "custom")]].
      * apply (Hk _ (apply_never_raises _ _ _ _) H).
      * apply (Hk _ (apply_never_raises _ _ _ _) H).
      * destruct cr as [[|c r]|].
        -- unfold bind, logging in H. exact (IH _ _ _ _ H).
        -- apply (Hk _ (apply_never_raises _ _ _ _) H).
        -- unfold bind, logging in H. exact (IH _ _ _ _ H).
      * unfold bind, logging in H. exact (IH _ _ _ _ H).
Qed.

End Loop.

Section LogBlind.

Context {RE : Re} {FK : Faker}.

(** ** What the log cannot influence *)

Lemma log_blind_ret {A} (a : A) : log_blind (ret a).
Proof. intros st1 st2 H. split; [reflexivity|exact H]. Qed.

Lemma log_blind_raise {A} (e : exn) : log_blind (raise (A := A) e).
Proof. intros st1 st2 H. split; [reflexivity|exact H]. Qed.

Lemma log_blind_lift {A} (r : exn + A) : log_blind (lift r).
Proof. intros st1 st2 H. split; [reflexivity|exact H]. Qed.

Lemma log_blind_logging (l : levelname) (msg : str) : log_blind (logging l msg).
Proof. intros st1 st2 H. split; [reflexivity|exact H]. Qed.

Lemma log_blind_draw (provider : Rng -> str * Rng) : log_blind (draw provider).
Proof.
  intros st1 st2 H. unfold draw. rewrite H.
  destruct (provider (rng st2)) as [s g]. split; reflexivity.
Qed.

Lemma log_blind_bind {A B} (c : M A) (k : A -> M B) :
  log_blind c -> (forall a, log_blind (k a)) -> log_blind (bind c k).
Proof.
  intros Hc Hk st1 st2 H. unfold bind.
  destruct (Hc st1 st2 H) as [E1 E2].
  destruct (c st1) as [[e1|a1] s1]; destruct (c st2) as [[e2|a2] s2];
    simpl in E1, E2; try discriminate.
  - inversion E1; subst e2. split; [reflexivity|exact E2].
  - inversion E1; subst a2. apply Hk. exact E2.
Qed.

Lemma log_blind_try {A} (c : M A) (h : exn -> M A) :
  log_blind c -> (forall e, log_blind (h e)) -> log_blind (try_except c h).
Proof.
  intros Hc Hh st1 st2 H. unfold try_except.
  destruct (Hc st1 st2 H) as [E1 E2].
  destruct (c st1) as [[e1|a1] s1]; destruct (c st2) as [[e2|a2] s2];
    simpl in E1, E2; try discriminate.
  - inversion E1; subst e2. apply Hh. exact E2.
  - split; [exact E1|exact E2].
Qed.

Lemma log_blind_generate_fake_data (data_type : str) :
  log_blind (generate_fake_data data_type).
Proof.
  unfold generate_fake_data.
  repeat match goal with |- context [if ?b then _ else _] => destruct b end;
    apply log_blind_draw.
Qed.

Lemma log_blind_sub_from (repl : Match -> M str) (string : str) :
  (forall m, log_blind (repl m)) ->
  forall ms pos, log_blind (sub_from repl string pos ms).
Proof.
  intros Hrepl. induction ms as [|m ms IH]; intros pos; simpl.
  - apply log_blind_ret.
  - apply log_blind_bind; [apply Hrepl|]. intros item.
    apply log_blind_bind; [apply IH|]. intros rest. apply log_blind_ret.
Qed.

Lemma log_blind_apply (text : str) (pattern : Pattern) (f : Match -> M str) :
  (forall m, log_blind (f m)) ->
  log_blind (apply_regex_replacement text pattern f).
Proof.
  intros Hf. unfold apply_regex_replacement, re_sub. apply log_blind_try.
  - apply log_blind_bind; [apply log_blind_lift|].
    intros ms. apply log_blind_sub_from. exact Hf.
  - intros e. apply log_blind_bind; [apply log_blind_logging|].
    intros _. apply log_blind_ret.
Qed.

Lemma log_blind_loop (rt : str) (cr : option str) :
  forall patterns text, log_blind (sanitize_loop patterns rt cr text).
Proof.
  induction patterns as [|p ps IH]; intros text; simpl.
  - apply log_blind_ret.
  - assert (Hlog : forall msg,
               log_blind (logging ERROR msg ;;; sanitize_loop ps rt cr text)).
    { intros msg. apply log_blind_bind; [apply log_blind_logging|]. intros _. apply IH. }
    assert (Hrep : forall pattern f,
               (forall m, log_blind (f m)) ->
               log_blind (t <- apply_regex_replacement text pattern f ;;
                          sanitize_loop ps rt cr t)).
    { intros pattern f Hf. apply log_blind_bind; [apply log_blind_apply; exact Hf|].
      intros t. apply IH. }
    destruct (re_compile p) as [[msg|msg|msg]|pattern];
      [apply Hlog|apply log_blind_raise|apply log_blind_raise|].
    destruct (rt == "remove"); [|destruct (rt == "fake"); [|destruct (rt == "custom")]].
    + apply Hrep. intros m. apply log_blind_ret.
    + apply Hrep. intros m. apply log_blind_generate_fake_data.
    + destruct cr as [[|c r]|]; [apply Hlog| |apply Hlog].
      apply Hrep. intros m. apply log_blind_ret.
    + apply Hlog.
Qed.

(** A spec on which [re.compile] raises [re.error] leaves no trace in the
    text: the run returns what it returns without that spec, and the
    generator ends in the same state. *)
Lemma malformed_spec_skipped (pattern_str msg : str) (ps1 ps2 : list str)
    (text rt : str) (cr : option str) st :
  re_compile pattern_str = inl (re_error msg) ->
  fst (sanitize_text text (ps1 ++ pattern_str :: ps2) rt cr st)
  = fst (sanitize_text text (ps1 ++ ps2) rt cr st)
  /\ rng (snd (sanitize_text text (ps1 ++ pattern_str :: ps2) rt cr st))
     = rng (snd (sanitize_text text (ps1 ++ ps2) rt cr st)).
Proof.
  intros Hc.
  assert (Hloop :
    fst (sanitize_loop (ps1 ++ pattern_str :: ps2) rt cr text st)
    = fst (sanitize_loop (ps1 ++ ps2) rt cr text st)
    /\ rng (snd (sanitize_loop (ps1 ++ pattern_str :: ps2) rt cr text st))
       = rng (snd (sanitize_loop (ps1 ++ ps2) rt cr text st))).
  { rewrite !loop_app. unfold bind.
    destruct (sanitize_loop ps1 rt cr text st) as [[e|t] st1];
      [split; reflexivity|].
    rewrite (loop_malformed _ _ _ _ _ _ _ Hc).
    unfold bind, logging. apply log_blind_loop. reflexivity. }
  assert (Hleft : sanitize_text text (ps1 ++ pattern_str :: ps2) rt cr st
                  = sanitize_loop (ps1 ++ pattern_str :: ps2) rt cr text st).
  { destruct ps1; reflexivity. }
  rewrite Hleft.
  destruct (ps1 ++ ps2) as [|q qs] eqn:E.
  - destruct Hloop as [H1 H2]. rewrite H1, H2. split; reflexivity.
  - exact Hloop.
Qed.

(** ** What the state cannot influence under [remove] and [custom] *)

Lemma loop_insensitive (rt : str) (cr : option str) :
  rt = "remove" \/ rt = "custom" ->
  forall patterns text, insensitive (sanitize_loop patterns rt cr text).
Proof.
  intros Hrt. induction patterns as [|p ps IH]; intros text st1 st2.
  - reflexivity.
  - destruct (re_compile p) as [[msg|msg|msg]|pattern] eqn:Hc.
    + rewrite !(fun st => loop_malformed p ps rt cr text msg st Hc).
      unfold bind, logging. apply IH.
    + simpl. rewrite Hc. reflexivity.
    + simpl. rewrite Hc. reflexivity.
    + assert (Hrep : forall replacement,
                 fst ((t <- apply_regex_replacement text pattern
                              (fun m => replace_match m replacement) ;;
                       sanitize_loop ps rt cr t) st1)
                 = fst ((t <- apply_regex_replacement text pattern
                                (fun m => replace_match m replacement) ;;
                         sanitize_loop ps rt cr t) st2)).
      { intros replacement. unfold bind.
        destruct (apply_replace_match text pattern replacement st1) as (s1 & E1 & _).
        destruct (apply_replace_match text pattern replacement st2) as (s2 & E2 & _).
        rewrite E1, E2. apply IH. }
      destruct Hrt as [-> | ->].
      * rewrite !(fun st => loop_remove p ps cr text pattern st Hc). apply Hrep.
      * destruct cr as [[|c r]|].
        -- rewrite !(fun st => loop_custom_missing p ps (Some []) text pattern st Hc
                                 (or_intror eq_refl)).
           unfold bind, logging. apply IH.
        -- rewrite !(fun st => loop_custom p ps c r text pattern st Hc). apply Hrep.
        -- rewrite !(fun st => loop_custom_missing p ps None text pattern st Hc
                                 (or_introl eq_refl)).
           unfold bind, logging. apply IH.
Qed.

End LogBlind.

Section Claims.

Context {RE : Re} {FK : Faker}.

(** ** Runs that leave the text as it is *)

Lemma loop_fixed (cr : option str) (t : str) :
  forall patterns,
    Forall handled patterns ->
    no_retrigger patterns t ->
    forall st, fst (sanitize_loop patterns "remove" cr t st) = inr t.
Proof.
  induction patterns as [|p ps IH]; intros Hh Hq st.
  - reflexivity.
  - inversion Hh as [|p' ps' Hp Hps]; subst.
    assert (Hq' : no_retrigger ps t).
    { intros q c ms Hin. apply Hq. right. exact Hin. }
    unfold handled in Hp.
    destruct (re_compile p) as [[msg|msg|msg]|pattern] eqn:Hc; try contradiction.
    + rewrite (loop_malformed p ps _ cr t msg st Hc). unfold bind, logging.
      apply IH; assumption.
    + rewrite (loop_remove p ps cr t pattern st Hc). unfold bind.
      destruct (apply_replace_match t pattern "" st) as (s1 & E1 & _).
      rewrite E1, replaced_empty_matches.
      * apply IH; assumption.
      * intros ms Hf. exact (Hq p pattern ms (or_introl eq_refl) Hc Hf).
Qed.

Lemma loop_custom_missing_fixed (cr : option str) (text : str) :
  cr = None \/ cr = Some [] ->
  forall patterns st,
    Forall handled patterns ->
    exists logs,
      sanitize_loop patterns "custom" cr text st
      = (inr text, mkState (rng st) (records st ++ logs))
      /\ length logs = length patterns
      /\ forallb is_error logs = true.
Proof.
  intros Hcr. induction patterns as [|p ps IH]; intros st Hh.
  - exists []. rewrite app_nil_r. destruct st; repeat split.
  - inversion Hh as [|p' ps' Hp Hps]; subst. unfold handled in Hp.
    destruct (re_compile p) as [[msg|msg|msg]|pattern] eqn:Hc; try contradiction.
    + rewrite (loop_malformed p ps _ cr text msg st Hc). unfold bind, logging.
      destruct (IH (mkState (rng st) (records st ++ [mkLog ERROR
                  ("Invalid regex pattern: " ++ p ++ " - " ++ msg)])) Hps)
        as (logs & E & Hlen & Herr).
      rewrite E. simpl rng. simpl records. rewrite <- app_assoc.
      eexists. split; [reflexivity|]. simpl. rewrite Hlen, Herr. split; reflexivity.
    + rewrite (loop_custom_missing p ps cr text pattern st Hc Hcr). unfold bind, logging.
      destruct (IH (mkState (rng st) (records st ++ [mkLog ERROR
                  "Custom replacement required but not provided for pattern: {pattern_str}"]))
                  Hps)
        as (logs & E & Hlen & Herr).
      rewrite E. simpl rng. simpl records. rewrite <- app_assoc.
      eexists. split; [reflexivity|]. simpl. rewrite Hlen, Herr. split; reflexivity.
Qed.

Lemma loop_unknown_type_fixed (rt : str) (cr : option str) (text : str) :
  ~ In rt ["remove"; "fake"; "custom"] ->
  forall patterns st,
    Forall handled patterns ->
    exists logs,
      sanitize_loop patterns rt cr text st
      = (inr text, mkState (rng st) (records st ++ logs))
      /\ length logs = length patterns
      /\ forallb is_error logs = true.
Proof.
  intros Hrt. induction patterns as [|p ps IH]; intros st Hh.
  - exists []. rewrite app_nil_r. destruct st; repeat split.
  - inversion Hh as [|p' ps' Hp Hps]; subst. unfold handled in Hp.
    destruct (re_compile p) as [[msg|msg|msg]|pattern] eqn:Hc; try contradiction.
    + rewrite (loop_malformed p ps rt cr text msg st Hc). unfold bind, logging.
      destruct (IH (mkState (rng st) (records st ++ [mkLog ERROR
                  ("Invalid regex pattern: " ++ p ++ " - " ++ msg)])) Hps)
        as (logs & E & Hlen & Herr).
      rewrite E. simpl rng. simpl records. rewrite <- app_assoc.
      eexists. split; [reflexivity|]. simpl. rewrite Hlen, Herr. split; reflexivity.
    + rewrite (loop_unknown_type p ps rt cr text pattern st Hc Hrt). unfold bind, logging.
      destruct (IH (mkState (rng st) (records st ++ [mkLog ERROR
                  ("Invalid replacement type: " ++ rt ++ " - pattern: " ++ p)])) Hps)
        as (logs & E & Hlen & Herr).
      rewrite E. simpl rng. simpl records. rewrite <- app_assoc.
      eexists. split; [reflexivity|]. simpl. rewrite Hlen, Herr. split; reflexivity.
Qed.

(** With [custom] and no replacement string, and on a list whose specs
    [re.compile] accepts or rejects with [re.error], the text comes back
    as it went in, the generator is untouched, and every pattern has
    logged one error. *)
Lemma custom_missing_leaves_text (text : str) (p : str) (ps : list str)
    (cr : option str) st :
  cr = None \/ cr = Some [] ->
  Forall handled (p :: ps) ->
  exists logs,
    sanitize_text text (p :: ps) "custom" cr st
    = (inr text, mkState (rng st) (records st ++ logs))
    /\ length logs = length (p :: ps)
    /\ forallb is_error logs = true.
Proof. intros Hcr Hh. exact (loop_custom_missing_fixed cr text Hcr (p :: ps) st Hh). Qed.

(** The same with a replacement type that is none of the three. *)
Lemma unknown_type_leaves_text (text rt : str) (p : str) (ps : list str)
    (cr : option str) st :
  ~ In rt ["remove"; "fake"; "custom"] ->
  Forall handled (p :: ps) ->
  exists logs,
    sanitize_text text (p :: ps) rt cr st
    = (inr text, mkState (rng st) (records st ++ logs))
    /\ length logs = length (p :: ps)
    /\ forallb is_error logs = true.
Proof. intros Hrt Hh. exact (loop_unknown_type_fixed rt cr text Hrt (p :: ps) st Hh). Qed.

(** [generate_fake_data] hands on the string that the provider returns:
    what holds of every value of a provider holds of the values of
    [generate_fake_data] on its label, and nothing else is known of
    them. *)
Lemma generate_fake_data_returns_provider_value (P : str -> Prop)
    (label : str) (provider : Rng -> str * Rng) st :
  category_provider label provider ->
  (forall g, P (fst (provider g))) ->
  exists s st', generate_fake_data label st = (inr s, st') /\ P s.
Proof.
  intros Hcat HP.
  assert (Hg : generate_fake_data label = draw provider).
  { inversion Hcat as [| | | | | |key Hkey]; subst; try reflexivity.
    unfold generate_fake_data.
    rewrite !str_eqb_neq; [reflexivity| | | | | |];
      intros ->; apply Hkey; simpl; auto 10. }
  rewrite Hg. unfold draw. specialize (HP (rng st)).
  destruct (provider (rng st)) as [s g]. eexists; eexists; split; [reflexivity|exact HP].
Qed.


(** ** The claims *)

(** C2.  Custom substitution is literal.  For a text, a single pattern
    that compiles and whose scan of the text yields the matches [ms], and
    a non-empty replacement string: the text is its gaps and its matched
    spans woven together, and [sanitize_text] returns the same gaps, in
    the same order, with the replacement string itself in the place of
    every matched span.  Nothing is logged and nothing is drawn.  (It
    holds whether or not [ms] is empty.) *)
Theorem custom_substitution_literal (text pattern_str replacement : str)
    (pattern : Pattern) (ms : list Match) (st : State) :
  re_compile pattern_str = inr pattern ->
  finditer pattern text = inr ms ->
  replacement <> [] ->
  text = weave (gaps text 0 ms) (map (matched text) ms)
  /\ sanitize_text text [pattern_str] "custom" (Some replacement) st
     = (inr (weave (gaps text 0 ms) (map (fun _ => replacement) ms)), st).
Proof.
  intros Hc Hf Hr. split.
  - exact (text_is_woven text (length text) ms 0 (finditer_ordered _ _ _ Hf)).
  - destruct replacement as [|c r]; [contradiction|].
    unfold sanitize_text. rewrite (loop_custom pattern_str [] c r text pattern st Hc).
    unfold bind. rewrite (apply_replace_match_found text pattern (c :: r) ms st Hf).
    reflexivity.
Qed.

(** C4.  An empty pattern list is a no-op: whatever the replacement type
    and the custom replacement, [sanitize_text] returns the text
    unchanged, raises nothing, draws nothing, and logs one record, a
    warning. *)
Theorem empty_patterns_noop (text rt : str) (cr : option str) (st : State) :
  sanitize_text text [] rt cr st
  = (inr text,
     mkState (rng st)
       (records st ++
        [mkLog WARNING "No patterns provided for sanitization, returning original text."])).
Proof. reflexivity. Qed.

(** C6.  Under [fake] the category key is the pattern spec itself.  When
    the table of categories maps the spec string to a provider (one of
    the six labels to its own provider, every other string to the word
    provider), [generate_fake_data] on the spec string is a draw from
    that provider, and [sanitize_text] puts successive draws from it in
    the place of the matches, whatever the matched text is. *)
Theorem fake_category_is_pattern_string (text pattern_str : str)
    (provider : Rng -> str * Rng) (pattern : Pattern) (ms : list Match)
    (cr : option str) (st : State) :
  category_provider pattern_str provider ->
  re_compile pattern_str = inr pattern ->
  finditer pattern text = inr ms ->
  generate_fake_data pattern_str = draw provider
  /\ sanitize_text text [pattern_str] "fake" cr st
     = (xs <- draws (draw provider) (length ms) ;;
        ret (weave (gaps text 0 ms) xs)) st.
Proof.
  intros Hcat Hc Hf.
  assert (Hg : generate_fake_data pattern_str = draw provider).
  { inversion Hcat as [| | | | | |key Hkey]; subst; try reflexivity.
    unfold generate_fake_data.
    rewrite !str_eqb_neq; [reflexivity| | | | | |];
      intros ->; apply Hkey; simpl; auto 10. }
  split; [exact Hg|].
  unfold sanitize_text. rewrite (loop_fake pattern_str [] cr text pattern st Hc).
  rewrite Hg. unfold bind at 1.
  unfold apply_regex_replacement, try_except, re_sub. unfold bind at 1. unfold lift.
  rewrite Hf, sub_from_draws. unfold bind.
  destruct (draws_draw provider (length ms) st) as (xs & g & E). rewrite E.
  reflexivity.
Qed.

(** C7.  Determinism under [remove] and [custom].  Two calls with the
    same text, the same list of patterns, the same replacement type out
    of these two and the same custom replacement have the same outcome,
    whatever the state of the random generator and of the log at either
    call. *)
Theorem remove_custom_deterministic (text : str) (patterns : list str) (rt : str)
    (cr : option str) (st1 st2 : State) :
  rt = "remove" \/ rt = "custom" ->
  fst (sanitize_text text patterns rt cr st1)
  = fst (sanitize_text text patterns rt cr st2).
Proof.
  intros Hrt. destruct patterns as [|p ps]; [reflexivity|].
  exact (loop_insensitive rt cr Hrt (p :: ps) text st1 st2).
Qed.

(** C8.  Idempotence under [remove].  If in the text that a first run
    returns no pattern of the list has a match other than empty ones,
    then running [sanitize_text] again on that text, with the same
    patterns, gives what the first run gave. *)
Theorem remove_idempotent (text : str) (patterns : list str) (cr : option str)
    (st : State) :
  (forall t, fst (sanitize_text text patterns "remove" cr st) = inr t ->
             no_retrigger patterns t) ->
  fst ((t <- sanitize_text text patterns "remove" cr ;;
        sanitize_text t patterns "remove" cr) st)
  = fst (sanitize_text text patterns "remove" cr st).
Proof.
  intros Hq. unfold bind.
  destruct (sanitize_text text patterns "remove" cr st) as [[e|t] st1] eqn:E;
    [reflexivity|].
  simpl. specialize (Hq t eq_refl).
  destruct patterns as [|p ps]; [reflexivity|].
  apply loop_fixed; [|exact Hq].
  exact (loop_returned "remove" cr (p :: ps) text st t st1 E).
Qed.

End Claims.

(** * The engine on [re] as modelled *)

(** C1.  Patterns compose on the working text.  On
    ["Contact: John Smith, john@x.com"] with the name pattern and then
    the email pattern, under [remove], [sanitize_text] returns
    ["Contact: , "]: the name pattern alone leaves
    ["Contact: , john@x.com"], and the email pattern takes the address out
    of that.  In general a run over a list in two parts is the run over
    the first part followed by the run over the second part on the text
    that the first returned; so each pattern is matched against the text
    as rewritten by all the patterns before it. *)
Theorem patterns_compose_sequentially :
  (forall (FK : Faker) (st : State),
      sanitize_text "Contact: John Smith, john@x.com" [name_pattern; email_pattern]
        "remove" None st
      = (inr "Contact: , ", st))
  /\ (forall (FK : Faker) (st : State),
         sanitize_text "Contact: John Smith, john@x.com" [name_pattern] "remove" None st
         = (inr "Contact: , john@x.com", st))
  /\ (forall (FK : Faker) (st : State),
         sanitize_text "Contact: , john@x.com" [email_pattern] "remove" None st
         = (inr "Contact: , ", st))
  /\ (forall (RE : Re) (FK : Faker) (text p : str) (ps : list str) (q : str)
             (qs : list str) (rt : str) (cr : option str) (st : State),
         sanitize_text text ((p :: ps) ++ q :: qs) rt cr st
         = (t <- sanitize_text text (p :: ps) rt cr ;;
            sanitize_text t (q :: qs) rt cr) st).
Proof.
  split; [|split; [|split]].
  - intros FK [g l]. vm_compute. reflexivity.
  - intros FK [g l]. vm_compute. reflexivity.
  - intros FK [g l]. vm_compute. reflexivity.
  - intros RE FK text p ps q qs rt cr st.
    exact (loop_app rt cr (q :: qs) (p :: ps) text st).
Qed.

(** A later pattern can match what exists only after an earlier one has
    rewritten the text: taking the digit out of ["a1b"] makes ["ab"],
    which the second pattern then removes; on the input itself the second
    pattern matches nothing. *)
Example later_pattern_sees_rewritten_text :
  fst (sanitize_text "a1b" ["\d"; "ab"] "remove" None st0) = inr ""
  /\ fst (sanitize_text "a1b" ["ab"] "remove" None st0) = inr "a1b".
Proof. split; vm_compute; reflexivity. Qed.

(** With one malformed and one valid spec under [remove], the malformed
    one is logged and skipped and the matches of the valid one are
    removed. *)
Example malformed_and_valid_remove :
  sanitize_text "abc123def" ["["; "\d+"] "remove" None st0
  = (inr "abcdef",
     mkState 0 [mkLog ERROR "Invalid regex pattern: [ - unterminated character set"]).
Proof. vm_compute. reflexivity. Qed.

(** C3.  A spec that fails to compile is not always isolated.  On a
    repetition count of [MAXREPEAT] or more [re.compile] raises
    [OverflowError], which is not [re.error]; the [except re.error] of
    line 93 lets it pass, and it leaves [sanitize_text]: the valid spec
    after it is never applied.  ([malformed_spec_skipped] is the
    isolation that does hold, for a spec on which [re.compile] raises
    [re.error].) *)
Theorem overflow_spec_aborts_remove :
  forall (FK : Faker) (st : State),
    sanitize_text "abc123def" ["a{4294967295}"; "\d+"] "remove" None st
    = (inl (OverflowError "the repetition number is too large"), st).
Proof. intros FK [g l]. vm_compute. reflexivity. Qed.

(** C5.  With [custom] and no replacement string the call does not
    always complete: the [OverflowError] of [re.compile] leaves
    [sanitize_text] here as well.  ([custom_missing_leaves_text] is what
    holds on the lists whose specs compile or raise [re.error]: the text
    comes back unchanged.) *)
Theorem overflow_spec_aborts_custom_missing :
  forall (FK : Faker) (st : State),
    sanitize_text "abc123def" ["a{4294967295}"] "custom" None st
    = (inl (OverflowError "the repetition number is too large"), st)
    /\ sanitize_text "abc123def" ["a{4294967295}"] "custom" (Some "") st
       = (inl (OverflowError "the repetition number is too large"), st).
Proof. intros FK [g l]. split; vm_compute; reflexivity. Qed.

Section UnknownType.

Context {RE : Re} {FK : Faker}.




End UnknownType.



(** Without a retrigger hypothesis a second run can remove more: taking
    ["ab"] out of ["aabb"] makes a new ["ab"]. *)
Example remove_retriggers :
  fst (sanitize_text "aabb" ["ab"] "remove" None st0) = inr "ab"
  /\ fst (sanitize_text "ab" ["ab"] "remove" None st0) = inr "".
Proof. split; vm_compute; reflexivity. Qed.

(** Under [fake] the outcome does depend on the generator. *)
Example fake_depends_on_generator :
  fst (sanitize_text "abc123def" ["\d+"] "fake" None st0) = inr "abcalphadef"
  /\ fst (sanitize_text "abc123def" ["\d+"] "fake" None
            (mkState (FK := stub_faker) 1 []))
     = inr "abcbetadef".
Proof. split; vm_compute; reflexivity. Qed.

(** ** Instances of the claims on concrete inputs *)

Lemma custom_substitution_literal_witness :
  sanitize_text "abc123def45" ["\d+"] "custom" (Some "#") st0
  = (inr "abc#def#", st0).
Proof.
  refine (proj2 (custom_substitution_literal "abc123def45" "\d+" "#"
                   (compiled "\d+") (found "\d+" "abc123def45") st0 _ _ _)).
  - vm_compute. reflexivity.
  - vm_compute. reflexivity.
  - discriminate.
Defined.

Lemma fake_category_is_pattern_string_witness :
  sanitize_text "mail a@b.io now" [email_pattern] "fake" None st0
  = (inr "mail alpha now", mkState (FK := stub_faker) 1 []).
Proof.
  refine (proj2 (fake_category_is_pattern_string "mail a@b.io now" email_pattern
                   fake_word (compiled email_pattern)
                   (found email_pattern "mail a@b.io now") None st0 _ _ _)).
  - apply key_other. simpl. intros H.
    repeat (destruct H as [H|H]; [discriminate|]). exact H.
  - vm_compute. reflexivity.
  - vm_compute. reflexivity.
Defined.

Lemma remove_custom_deterministic_witness :
  fst (sanitize_text "abc123def" ["["; "\d+"] "remove" None st0)
  = fst (sanitize_text "abc123def" ["["; "\d+"] "remove" None
           (mkState (FK := stub_faker) 7 [mkLog WARNING "earlier"])).
Proof.
  apply (remove_custom_deterministic "abc123def" ["["; "\d+"] "remove" None).
  left. reflexivity.
Defined.

Lemma remove_idempotent_witness :
  fst ((t <- sanitize_text "abc123def" ["\d+"; "["] "remove" None ;;
        sanitize_text t ["\d+"; "["] "remove" None) st0)
  = fst (sanitize_text "abc123def" ["\d+"; "["] "remove" None st0).
Proof.
  apply (remove_idempotent "abc123def" ["\d+"; "["] None st0).
  intros t H. vm_compute in H. inversion H; subst t.
  intros p c ms [<-|[<-|[]]] Hc Hf.
  - vm_compute in Hc. inversion Hc; subst c.
    vm_compute in Hf. inversion Hf; subst ms. constructor.
  - vm_compute in Hc. discriminate.
Defined.

(** * Further properties of the engine *)

Lemma subsequence_refl (s : str) : subsequence s s.
Proof. induction s as [|c s IH]; [apply sub_nil|apply sub_keep; exact IH]. Qed.

Lemma subsequence_nil (s : str) : subsequence [] s.
Proof. induction s as [|c s IH]; [apply sub_nil|apply sub_skip; exact IH]. Qed.

Lemma subsequence_app (a b c d : str) :
  subsequence a b -> subsequence c d -> subsequence (a ++ c) (b ++ d).
Proof.
  intros Hab Hcd. induction Hab as [|x t s H IH|x t s H IH]; simpl.
  - exact Hcd.
  - apply sub_skip. exact IH.
  - apply sub_keep. exact IH.
Qed.

Lemma subsequence_trans (a b c : str) :
  subsequence a b -> subsequence b c -> subsequence a c.
Proof.
  intros Hab Hbc. revert a Hab.
  induction Hbc as [|x t s H IH|x t s H IH]; intros a Hab.
  - exact Hab.
  - apply sub_skip. apply IH. exact Hab.
  - inversion Hab as [|y t' s' H'|y t' s' H']; subst.
    + apply sub_skip. apply IH. exact H'.
    + apply sub_keep. apply IH. exact H'.
Qed.

Lemma subsequence_length (a b : str) : subsequence a b -> length a <= length b.
Proof. intros H. induction H; simpl; lia. Qed.

Lemma weave_remove_subsequence (string : str) :
  forall ms pos,
    subsequence (weave (gaps string pos ms) (map (fun _ => []) ms))
                (weave (gaps string pos ms) (map (matched string) ms)).
Proof.
  induction ms as [|m ms IH]; intros pos; simpl.
  - apply subsequence_refl.
  - apply subsequence_app; [apply subsequence_refl|].
    change (subsequence ([] ++ weave (gaps string (m_end m) ms) (map (fun _ => []) ms))
              (matched string m
               ++ weave (gaps string (m_end m) ms) (map (matched string) ms))).
    apply subsequence_app; [apply subsequence_nil|apply IH].
Qed.

Lemma matches_from_le (n : nat) :
  forall ms pos, matches_from pos n ms -> pos <= n.
Proof.
  induction ms as [|m ms IH]; intros pos H; simpl in H.
  - exact H.
  - destruct H as (Hb & He & Hrest). apply IH in Hrest. lia.
Qed.

Lemma slice_length (string : str) (i j : nat) :
  j <= length string -> length (slice string i j) = j - i.
Proof.
  intros Hj. unfold slice. rewrite length_firstn, length_skipn. lia.
Qed.

Lemma weave_length (string replacement : str) :
  forall ms pos,
    matches_from pos (length string) ms ->
    length (weave (gaps string pos ms) (map (fun _ => replacement) ms))
    + total_matched ms
    = length string - pos + length ms * length replacement.
Proof.
  induction ms as [|m ms IH]; intros pos H; simpl.
  - rewrite length_skipn. unfold total_matched. simpl. lia.
  - simpl in H. destruct H as (Hb & He & Hrest).
    pose proof (matches_from_le _ _ _ Hrest) as Hn.
    specialize (IH _ Hrest).
    rewrite !length_app, slice_length by lia.
    unfold total_matched in *. simpl. lia.
Qed.

Section EngineExtras.

Context {RE : Re} {FK : Faker}.

Lemma replaced_subsequence (text : str) (pattern : Pattern) :
  subsequence (replaced text pattern []) text.
Proof.
  unfold replaced. destruct (finditer pattern text) as [e|ms] eqn:Hf.
  - apply subsequence_refl.
  - pose proof (text_is_woven text (length text) ms 0 (finditer_ordered _ _ _ Hf)) as Hw.
    simpl in Hw. pose proof (weave_remove_subsequence text ms 0) as Hs.
    rewrite <- Hw in Hs. exact Hs.
Qed.

Lemma loop_remove_subsequence (cr : option str) :
  forall patterns text st t st',
    sanitize_loop patterns "remove" cr text st = (inr t, st') ->
    subsequence t text.
Proof.
  induction patterns as [|p ps IH]; intros text st t st' H.
  - inversion H; subst. apply subsequence_refl.
  - destruct (re_compile p) as [[msg|msg|msg]|pattern] eqn:Hc.
    + rewrite (loop_malformed p ps _ cr text msg st Hc) in H.
      unfold bind, logging in H. exact (IH _ _ _ _ H).
    + simpl in H. rewrite Hc in H. discriminate.
    + simpl in H. rewrite Hc in H. discriminate.
    + rewrite (loop_remove p ps cr text pattern st Hc) in H. unfold bind in H.
      destruct (apply_replace_match text pattern "" st) as (s1 & E1 & _).
      rewrite E1 in H.
      apply (subsequence_trans _ (replaced text pattern "")).
      * exact (IH _ _ _ _ H).
      * apply replaced_subsequence.
Qed.

Lemma apply_scan_raises (text : str) (pattern : Pattern) (f : Match -> M str)
    (e : exn) st :
  finditer pattern text = inl e ->
  apply_regex_replacement text pattern f st
  = (inr text,
     mkState (rng st)
       (records st ++
        [mkLog ERROR ("Error applying regex pattern " ++ pattern_repr pattern
                        ++ ": " ++ exn_str e)])).
Proof.
  intros Hf. unfold apply_regex_replacement, try_except, re_sub, bind at 1, lift.
  rewrite Hf. reflexivity.
Qed.

Lemma loop_no_draw (rt : str) (cr : option str) :
  rt <> "fake" ->
  forall patterns text st,
    rng (snd (sanitize_loop patterns rt cr text st)) = rng st.
Proof.
  intros Hrt. induction patterns as [|p ps IH]; intros text st.
  - reflexivity.
  - assert (Hlog : forall msg,
               rng (snd ((logging ERROR msg ;;; sanitize_loop ps rt cr text) st))
               = rng st).
    { intros msg. unfold bind, logging. rewrite IH. reflexivity. }
    assert (Hrep : forall pattern replacement,
               rng (snd ((t <- apply_regex_replacement text pattern
                                 (fun m => replace_match m replacement) ;;
                          sanitize_loop ps rt cr t) st))
               = rng st).
    { intros pattern replacement. unfold bind.
      destruct (apply_replace_match text pattern replacement st) as (s1 & E1 & Hg).
      rewrite E1, IH. exact Hg. }
    simpl sanitize_loop.
    destruct (re_compile p) as [[msg|msg|msg]|pattern];
      [apply Hlog|reflexivity|reflexivity|].
    destruct (rt == "remove"); [apply Hrep|].
    destruct (rt == "fake") eqn:Hfake.
    { apply str_eqb_eq in Hfake. contradiction. }
    destruct (rt == "custom"); [|apply Hlog].
    destruct cr as [[|c r]|]; [apply Hlog|apply Hrep|apply Hlog].
Qed.

(** X1.  Under [remove] the engine only deletes: whatever the patterns
    and whatever the regex engine, a text that [sanitize_text] returns is
    the input with some characters left out, the others in their order;
    so it is never longer than the input. *)
Theorem remove_only_deletes (text : str) (patterns : list str) (cr : option str)
    (st st' : State) (t : str) :
  sanitize_text text patterns "remove" cr st = (inr t, st') ->
  subsequence t text /\ length t <= length text.
Proof.
  intros H.
  assert (Hs : subsequence t text).
  { destruct patterns as [|p ps].
    - inversion H; subst. apply subsequence_refl.
    - exact (loop_remove_subsequence cr (p :: ps) text st t st' H). }
  split; [exact Hs|apply subsequence_length; exact Hs].
Qed.

(** X2.  The length of the output, for one pattern that compiles and
    whose scan yields the matches [ms]: under [remove] the output is
    shorter than the text by exactly the characters inside the matches;
    under [custom] with a non-empty replacement it has, besides, one copy
    of the replacement for each match. *)
Theorem replacement_length_accounting (text pattern_str : str) (pattern : Pattern)
    (ms : list Match) (c : ascii) (r : str) (cr : option str) (st : State) :
  re_compile pattern_str = inr pattern ->
  finditer pattern text = inr ms ->
  (exists t, fst (sanitize_text text [pattern_str] "remove" cr st) = inr t
             /\ length t + total_matched ms = length text)
  /\ (exists t, fst (sanitize_text text [pattern_str] "custom" (Some (c :: r)) st) = inr t
                /\ length t + total_matched ms
                   = length text + length ms * length (c :: r)).
Proof.
  intros Hc Hf.
  pose proof (finditer_ordered _ _ _ Hf) as Hord.
  split.
  - unfold sanitize_text. rewrite (loop_remove pattern_str [] cr text pattern st Hc).
    unfold bind. rewrite (apply_replace_match_found text pattern "" ms st Hf).
    eexists. split; [reflexivity|].
    rewrite (weave_length text "" ms 0 Hord). simpl. lia.
  - unfold sanitize_text. rewrite (loop_custom pattern_str [] c r text pattern st Hc).
    unfold bind. rewrite (apply_replace_match_found text pattern (c :: r) ms st Hf).
    eexists. split; [reflexivity|].
    rewrite (weave_length text (c :: r) ms 0 Hord). lia.
Qed.

(** X3.  [faker] is consulted under [fake] only: with any other
    replacement type, valid or not, a call of [sanitize_text] leaves the
    random generator in the state it found it in, whether it returns or
    raises. *)
Theorem no_draw_unless_fake (text : str) (patterns : list str) (rt : str)
    (cr : option str) (st : State) :
  rt <> "fake" ->
  rng (snd (sanitize_text text patterns rt cr st)) = rng st.
Proof.
  intros Hrt. destruct patterns as [|p ps]; [reflexivity|].
  exact (loop_no_draw rt cr Hrt (p :: ps) text st).
Qed.

(** The state after [apply_regex_replacement] has logged that the scan
    of [pattern] raised [e]. *)
Definition after_scan_error (st : State) (pattern : Pattern) (e : exn) : State :=
  mkState (rng st)
    (records st ++
     [mkLog ERROR ("Error applying regex pattern " ++ pattern_repr pattern
                     ++ ": " ++ exn_str e)]).

(** X8.  A failure of the scan is isolated, under [remove] and under
    [custom] with a replacement.  If [re.sub] raises for the first
    pattern on the text, [apply_regex_replacement] logs that one error
    and hands the text back: the call on that pattern alone returns the
    text unchanged, and the call on a longer list is the call on the rest
    of the list, on the same text, from the state with that one record
    more; so it returns what the call without the pattern returns. *)
Theorem scan_failure_skips_pattern (text p q : str) (qs : list str) (rt : str)
    (cr : option str) (pattern : Pattern) (e : exn) (st : State) :
  rt = "remove" \/ (rt = "custom" /\ exists c r, cr = Some (c :: r)) ->
  re_compile p = inr pattern ->
  finditer pattern text = inl e ->
  sanitize_text text [p] rt cr st = (inr text, after_scan_error st pattern e)
  /\ sanitize_text text (p :: q :: qs) rt cr st
     = sanitize_text text (q :: qs) rt cr (after_scan_error st pattern e)
  /\ fst (sanitize_text text (p :: q :: qs) rt cr st)
     = fst (sanitize_text text (q :: qs) rt cr st).
Proof.
  intros Hrt Hc Hf.
  assert (Hstep : forall ps,
             sanitize_loop (p :: ps) rt cr text st
             = sanitize_loop ps rt cr text (after_scan_error st pattern e)).
  { intros ps. destruct Hrt as [-> | (-> & c & r & ->)].
    - rewrite (loop_remove p ps cr text pattern st Hc). unfold bind.
      rewrite (apply_scan_raises text pattern _ e st Hf). reflexivity.
    - rewrite (loop_custom p ps c r text pattern st Hc). unfold bind.
      rewrite (apply_scan_raises text pattern _ e st Hf). reflexivity. }
  unfold sanitize_text. split; [|split].
  - rewrite Hstep. reflexivity.
  - apply Hstep.
  - rewrite Hstep. apply log_blind_loop. reflexivity.
Qed.

End EngineExtras.

(** * Properties of the boundary *)

Section BoundaryFacts.

Context {RE : Re} {FK : Faker} {SYS : OS}.

(** The process after one more record has been logged. *)
Definition logged (p : Process) (r : LogRecord) : Process :=
  mkProcess (world p) (mkState (rng (engine p)) (records (engine p) ++ [r])).

Lemma io_log_logged (l : levelname) (msg : str) (p : Process) :
  io_log l msg p = (inr tt, logged p (mkLog l msg)).
Proof. reflexivity. Qed.

(** What [detect_encoding] does, case by case. *)
Lemma detect_encoding_cases (file_path : str) (p : Process) :
  (exists raw c e,
      open_read_bytes file_path (world p) = inr raw
      /\ chardet_detect raw = inr (Some (c :: e))
      /\ detect_encoding file_path p = (inr (c :: e), p))
  \/ (exists raw,
         open_read_bytes file_path (world p) = inr raw
         /\ (chardet_detect raw = inr None \/ chardet_detect raw = inr (Some []))
         /\ detect_encoding file_path p = (inr "utf-8", p))
  \/ (exists e,
         (open_read_bytes file_path (world p) = inl e
          \/ exists raw, open_read_bytes file_path (world p) = inr raw
                         /\ chardet_detect raw = inl e)
         /\ detect_encoding file_path p
            = (inr "utf-8",
               logged p (mkLog ERROR ("Error detecting encoding for " ++ file_path
                                        ++ ": " ++ error_str e)))).
Proof.
  unfold detect_encoding, io_try, io_bind, os_get.
  destruct (open_read_bytes file_path (world p)) as [e|raw] eqn:Hb; simpl.
  - right; right. exists e. split; [left; reflexivity|reflexivity].
  - destruct (chardet_detect raw) as [e|[[|c enc]|]] eqn:Hd; simpl.
    + right; right. exists e. split; [right; exists raw; split; [reflexivity|exact Hd]|].
      reflexivity.
    + right; left. exists raw. repeat split. right. exact Hd.
    + left. exists raw, c, enc. repeat split. exact Hd.
    + right; left. exists raw. repeat split. left. exact Hd.
Qed.

(** [detect_encoding] returns, with a non-empty name, in a process that
    differs from the one it started in by log records at most. *)
Lemma detect_encoding_returns (file_path : str) (p : Process) :
  exists encoding p',
    detect_encoding file_path p = (inr encoding, p')
    /\ encoding <> []
    /\ world p' = world p
    /\ rng (engine p') = rng (engine p)
    /\ (p' = p \/ exists r, p' = logged p r /\ level r = ERROR).
Proof.
  destruct (detect_encoding_cases file_path p)
    as [(raw & c & e & _ & _ & E)|[(raw & _ & _ & E)|(e & _ & E)]];
    rewrite E; eexists; eexists; (split; [reflexivity|]);
    (split; [discriminate|]); (split; [reflexivity|]); (split; [reflexivity|]).
  - left; reflexivity.
  - left; reflexivity.
  - right. eexists. split; reflexivity.
Qed.

(** What [read_text_file] does: it returns what the file reads as under
    the detected encoding, or logs an error and exits with status 1. *)
Lemma read_text_file_cases (file_path : str) (p : Process) :
  exists encoding p1,
    detect_encoding file_path p = (inr encoding, p1)
    /\ world p1 = world p
    /\ ((exists content,
            open_read_text file_path encoding (world p) = inr content
            /\ read_text_file file_path p = (inr content, p1))
        \/ (exists e msg,
               open_read_text file_path encoding (world p) = inl e
               /\ read_text_file file_path p
                  = (inl (SystemExit 1), logged p1 (mkLog ERROR msg)))).
Proof.
  destruct (detect_encoding_returns file_path p) as (enc & p1 & E & _ & Hw & _ & _).
  exists enc, p1. split; [exact E|]. split; [exact Hw|].
  unfold read_text_file, io_try, io_bind. rewrite E. unfold os_get. rewrite Hw.
  destruct (open_read_text file_path enc (world p)) as [[m|e]|content]; simpl.
  - right. eexists; eexists. split; reflexivity.
  - right. eexists; eexists. split; reflexivity.
  - left. eexists. split; reflexivity.
Qed.

Lemma write_text_file_cases (file_path content encoding : str) (p : Process) :
  (exists w,
      open_write_text file_path content encoding (world p) = (inr tt, w)
      /\ write_text_file file_path content encoding p = (inr tt, mkProcess w (engine p)))
  \/ (exists e w,
         open_write_text file_path content encoding (world p) = (inl e, w)
         /\ write_text_file file_path content encoding p
            = (inl (SystemExit 1),
               logged (mkProcess w (engine p))
                 (mkLog ERROR ("Error writing to file " ++ file_path ++ ": "
                                 ++ error_str e)))).
Proof.
  unfold write_text_file, io_try, os_do.
  destruct (open_write_text file_path content encoding (world p)) as [[e|[]] w]; simpl.
  - right. exists e, w. split; reflexivity.
  - left. exists w. split; reflexivity.
Qed.

Lemma os_do_no_exit {A} (f : World -> (error + A) * World) (p p' : Process) (code : nat) :
  os_do f p <> (inl (SystemExit code), p').
Proof.
  unfold os_do. destruct (f (world p)) as [[e|a] w]; simpl; discriminate.
Qed.

(** Every exit of the input part has status 1 and comes right after an
    error is logged. *)
Lemma main_input_exit (args : Namespace) (p p' : Process) (code : nat) :
  main_input args p = (inl (SystemExit code), p') ->
  code = 1 /\ exists q msg, p' = logged q (mkLog ERROR msg).
Proof.
  unfold main_input. destruct (args_input args) as [[|c path]|].
  - intros H. inversion H. split; [reflexivity|]. eexists; eexists; reflexivity.
  - destruct ((c :: path) == "-").
    + unfold io_bind, os_get. simpl. destruct (stdin_isatty (world p)).
      * intros H. inversion H. split; [reflexivity|]. eexists; eexists; reflexivity.
      * intros H. exfalso. exact (os_do_no_exit _ _ _ _ H).
    + unfold io_bind, os_get. simpl. destruct (os_path_exists (c :: path) (world p)).
      * destruct (read_text_file_cases (c :: path) p)
          as (enc & p1 & _ & _ & [(content & _ & E)|(e & msg & _ & E)]);
          rewrite E; intros H; inversion H.
        split; [reflexivity|]. eexists; eexists; reflexivity.
      * intros H. inversion H. split; [reflexivity|]. eexists; eexists; reflexivity.
  - intros H. inversion H. split; [reflexivity|]. eexists; eexists; reflexivity.
Qed.

(** So has every exit of the output part. *)
Lemma main_output_exit (args : Namespace) (t : str) (p p' : Process) (code : nat) :
  main_output args t p = (inl (SystemExit code), p') ->
  code = 1 /\ exists q msg, p' = logged q (mkLog ERROR msg).
Proof.
  unfold main_output. destruct (args_output args) as [[|c path]|].
  - intros H. exfalso. exact (os_do_no_exit _ _ _ _ H).
  - destruct ((c :: path) == "-").
    + intros H. exfalso. exact (os_do_no_exit _ _ _ _ H).
    + destruct (write_text_file_cases (c :: path) t "utf-8" p)
        as [(w & _ & E)|(e & w & _ & E)]; rewrite E; intros H; inversion H.
      split; [reflexivity|]. eexists; eexists; reflexivity.
  - intros H. exfalso. exact (os_do_no_exit _ _ _ _ H).
Qed.

(** X9.  [detect_encoding] falls back to ["utf-8"], case by case.  When
    the file is read and [chardet] names a non-empty encoding, it returns
    that name and logs nothing.  When the file is read and [chardet]
    names none ([None] or the empty string), it returns ["utf-8"] and
    logs nothing.  When reading the file raises, or [chardet] raises, it
    returns ["utf-8"] after logging one error that names the file and the
    exception.  In no case does it raise or touch anything outside. *)
Theorem detect_encoding_falls_back (file_path : str) (p : Process) :
  (forall raw c e,
      open_read_bytes file_path (world p) = inr raw ->
      chardet_detect raw = inr (Some (c :: e)) ->
      detect_encoding file_path p = (inr (c :: e), p))
  /\ (forall raw,
         open_read_bytes file_path (world p) = inr raw ->
         chardet_detect raw = inr None \/ chardet_detect raw = inr (Some []) ->
         detect_encoding file_path p = (inr "utf-8", p))
  /\ (forall e,
         open_read_bytes file_path (world p) = inl e ->
         detect_encoding file_path p
         = (inr "utf-8",
            logged p (mkLog ERROR ("Error detecting encoding for " ++ file_path
                                     ++ ": " ++ error_str e))))
  /\ (forall raw e,
         open_read_bytes file_path (world p) = inr raw ->
         chardet_detect raw = inl e ->
         detect_encoding file_path p
         = (inr "utf-8",
            logged p (mkLog ERROR ("Error detecting encoding for " ++ file_path
                                     ++ ": " ++ error_str e)))).
Proof.
  unfold detect_encoding, io_try, io_bind, os_get.
  split; [|split; [|split]].
  - intros raw c e Hb Hd. rewrite Hb. simpl. rewrite Hd. reflexivity.
  - intros raw Hb [Hd|Hd]; rewrite Hb; simpl; rewrite Hd; reflexivity.
  - intros e Hb. rewrite Hb. reflexivity.
  - intros raw e Hb Hd. rewrite Hb. simpl. rewrite Hd. reflexivity.
Qed.

(** X10.  [read_text_file] reads under the encoding that
    [detect_encoding] returned, and lets no exception out.  With
    [encoding] that result and [p1] the process it left: if opening and
    reading the file under [encoding] gives a text, that text is
    returned, in [p1]; if it raises [FileNotFoundError], the error
    ["File not found"] is logged and the program exits with status 1; if
    it raises anything else, the error ["Error reading file"], with the
    exception, is logged and the program exits with status 1. *)
Theorem read_text_file_returns_or_exits (file_path encoding : str) (p p1 : Process) :
  detect_encoding file_path p = (inr encoding, p1) ->
  (forall content,
      open_read_text file_path encoding (world p) = inr content ->
      read_text_file file_path p = (inr content, p1))
  /\ (forall m,
         open_read_text file_path encoding (world p) = inl (FileNotFoundError m) ->
         read_text_file file_path p
         = (inl (SystemExit 1), logged p1 (mkLog ERROR ("File not found: " ++ file_path))))
  /\ (forall e,
         open_read_text file_path encoding (world p) = inl (Other e) ->
         read_text_file file_path p
         = (inl (SystemExit 1),
            logged p1 (mkLog ERROR ("Error reading file " ++ file_path ++ ": "
                                      ++ exn_str e)))).
Proof.
  intros E.
  assert (Hw : world p1 = world p).
  { destruct (detect_encoding_returns file_path p) as (enc0 & p0 & E0 & _ & Hw & _).
    rewrite E in E0. inversion E0; subst. exact Hw. }
  unfold read_text_file, io_try, io_bind. rewrite E. unfold os_get. rewrite Hw.
  split; [|split].
  - intros content Ht. rewrite Ht. reflexivity.
  - intros m Ht. rewrite Ht. reflexivity.
  - intros e Ht. rewrite Ht. reflexivity.
Qed.

(** X11.  A file that is not there is reported twice.  When both opens
    of the path raise [FileNotFoundError], [read_text_file] logs the
    error of [detect_encoding] and then ["File not found"], exactly these
    two records, and exits with status 1. *)
Theorem read_missing_file (file_path m1 m2 : str) (p : Process) :
  open_read_bytes file_path (world p) = inl (FileNotFoundError m1) ->
  (forall encoding,
      open_read_text file_path encoding (world p) = inl (FileNotFoundError m2)) ->
  read_text_file file_path p
  = (inl (SystemExit 1),
     mkProcess (world p)
       (mkState (rng (engine p))
          (records (engine p) ++
           [mkLog ERROR ("Error detecting encoding for " ++ file_path ++ ": " ++ m1);
            mkLog ERROR ("File not found: " ++ file_path)]))).
Proof.
  intros Hb Ht.
  unfold read_text_file, detect_encoding, io_try, io_bind, os_get.
  rewrite Hb. simpl. rewrite Ht. simpl.
  unfold logged. simpl. rewrite <- app_assoc. reflexivity.
Qed.

(** X12.  [write_text_file] lets no exception out: it returns once the
    write has succeeded, logging nothing; when the write raises, it logs
    one error that names the file and exits with status 1. *)
Theorem write_text_file_returns_or_exits (file_path content encoding : str)
    (p : Process) :
  exists w,
    w = snd (open_write_text file_path content encoding (world p))
    /\ ((fst (open_write_text file_path content encoding (world p)) = inr tt
         /\ write_text_file file_path content encoding p
            = (inr tt, mkProcess w (engine p)))
        \/ (exists e,
               fst (open_write_text file_path content encoding (world p)) = inl e
               /\ write_text_file file_path content encoding p
                  = (inl (SystemExit 1),
                     logged (mkProcess w (engine p))
                       (mkLog ERROR ("Error writing to file " ++ file_path ++ ": "
                                       ++ error_str e))))).
Proof.
  destruct (write_text_file_cases file_path content encoding p)
    as [(w & Ho & E)|(e & w & Ho & E)]; exists w; rewrite Ho; simpl.
  - split; [reflexivity|]. left. split; [reflexivity|exact E].
  - split; [reflexivity|]. right. exists e. split; [reflexivity|exact E].
Qed.

(** X13.  Without [--input] the program stops at once.  When the
    namespace holds no input ([None], the default, or the empty string),
    [main] logs one error and exits with status 1 whatever the other
    arguments are and whether or not standard input is a terminal: it
    does not read standard input, even when something is piped in. *)
Theorem main_without_input (out : option str) (pats : list str) (rt : str)
    (cr : option str) (p : Process) :
  main (mkNamespace None out pats rt cr) p
  = (inl (SystemExit 1),
     logged p (mkLog ERROR "Input is required either via --input or piped stdin."))
  /\ main (mkNamespace (Some "") out pats rt cr) p
     = (inl (SystemExit 1),
        logged p (mkLog ERROR "Input is required either via --input or piped stdin.")).
Proof. split; reflexivity. Qed.

(** X14.  With [--input -] and a terminal on standard input, [main]
    logs one error and exits with status 1 without reading anything. *)
Theorem main_stdin_is_terminal (out : option str) (pats : list str) (rt : str)
    (cr : option str) (p : Process) :
  stdin_isatty (world p) = true ->
  main (mkNamespace (Some "-") out pats rt cr) p
  = (inl (SystemExit 1), logged p (mkLog ERROR "No input provided via stdin.")).
Proof.
  intros H. unfold main, main_input, io_bind, os_get. simpl. rewrite H. reflexivity.
Qed.

(** X15.  With a path that [os.path.exists] denies, [main] logs one
    error that names the path and exits with status 1; the file is not
    opened, so the two records of a failed read do not appear. *)
Theorem main_input_does_not_exist (c : ascii) (path : str) (out : option str)
    (pats : list str) (rt : str) (cr : option str) (p : Process) :
  c :: path <> "-" ->
  os_path_exists (c :: path) (world p) = false ->
  main (mkNamespace (Some (c :: path)) out pats rt cr) p
  = (inl (SystemExit 1),
     logged p (mkLog ERROR ("Input file does not exist: " ++ c :: path))).
Proof.
  intros Hdash H. unfold main, main_input, io_bind, os_get.
  cbn [args_input]. rewrite (str_eqb_neq _ _ Hdash). cbn beta iota. rewrite H. reflexivity.
Qed.

(** X16.  Once [parse_args] has returned, the only exit status is 1, and
    no exit is silent: whenever the rest of [main] (lines 128-150, with
    [read_text_file] and [write_text_file]) ends in [sys.exit], the code
    is 1 and the last thing the program did was to log an error.  The
    exits of [parse_args] itself at line 126 are not part of this
    statement. *)
Theorem main_exit_status (args : Namespace) (p p' : Process) (code : nat) :
  main args p = (inl (SystemExit code), p') ->
  code = 1 /\ exists q msg, p' = logged q (mkLog ERROR msg).
Proof.
  unfold main, io_bind at 1.
  destruct (main_input args p) as [[[e|c]|text] p1] eqn:Hin.
  - discriminate.
  - intros H. inversion H; subst. exact (main_input_exit _ _ _ _ Hin).
  - unfold io_bind, run_engine.
    destruct (sanitize_text text (args_patterns args) (args_replacement args)
                (args_custom_replacement args) (engine p1)) as [[e|t] st1].
    + discriminate.
    + apply main_output_exit.
Qed.

(** When the loop raises, it raises what [re.compile] raised on the first
    spec that neither compiles nor raises [re.error]. *)
Lemma loop_raises_first_unhandled (rt : str) (cr : option str) :
  forall patterns text st e st',
    sanitize_loop patterns rt cr text st = (inl e, st') ->
    exists before spec after,
      patterns = before ++ spec :: after
      /\ Forall handled before
      /\ re_compile spec = inl e
      /\ (forall msg, e <> re_error msg).
Proof.
  induction patterns as [|p ps IH]; intros text st e st' H.
  - discriminate.
  - assert (Hnext : forall text1 st1,
               sanitize_loop ps rt cr text1 st1 = (inl e, st') ->
               handled p ->
               exists before spec after,
                 p :: ps = before ++ spec :: after
                 /\ Forall handled before
                 /\ re_compile spec = inl e
                 /\ (forall msg, e <> re_error msg)).
    { intros text1 st1 H1 Hp.
      destruct (IH _ _ _ _ H1) as (before & spec & after & -> & Hb & Hc & Hne).
      exists (p :: before), spec, after.
      split; [reflexivity|]. split; [constructor; assumption|]. split; assumption. }
    assert (Hk : forall (c : M str),
               (exists t0 st0, c st = (inr t0, st0)) ->
               (x <- c ;; sanitize_loop ps rt cr x) st = (inl e, st') ->
               handled p ->
               exists before spec after,
                 p :: ps = before ++ spec :: after
                 /\ Forall handled before
                 /\ re_compile spec = inl e
                 /\ (forall msg, e <> re_error msg)).
    { intros c (t0 & st0 & E) Hb Hp. unfold bind in Hb. rewrite E in Hb.
      exact (Hnext _ _ Hb Hp). }
    simpl in H. unfold handled in Hnext, Hk.
    destruct (re_compile p) as [[msg|msg|msg]|pattern] eqn:Hc.
    + unfold bind, logging in H. exact (Hnext _ _ H I).
    + inversion H; subst. exists [], p, ps.
      split; [reflexivity|]. split; [constructor|]. split; [exact Hc|]. discriminate.
    + inversion H; subst. exists [], p, ps.
      split; [reflexivity|]. split; [constructor|]. split; [exact Hc|]. discriminate.
    + destruct (rt == "remove"); [|destruct (rt == "fake"); [|destruct (rt == "custom")]].
      * exact (Hk _ (apply_never_raises _ _ _ _) H I).
      * exact (Hk _ (apply_never_raises _ _ _ _) H I).
      * destruct cr as [[|c r]|].
        -- unfold bind, logging in H. exact (Hnext _ _ H I).
        -- exact (Hk _ (apply_never_raises _ _ _ _) H I).
        -- unfold bind, logging in H. exact (Hnext _ _ H I).
      * unfold bind, logging in H. exact (Hnext _ _ H I).
Qed.

(** X17.  An exception of [re.compile] that is not [re.error] ends the
    program before any output.  When the input has been read and some
    spec of [args.patterns] neither compiles nor raises [re.error],
    [main] raises the exception that [re.compile] raised on the first
    such spec, and nothing has been printed or written since the input
    was read. *)
Theorem main_compile_exception_escapes (args : Namespace) (text : str)
    (p p1 : Process) :
  main_input args p = (inr text, p1) ->
  ~ Forall handled (args_patterns args) ->
  exists before spec after e st1,
    args_patterns args = before ++ spec :: after
    /\ Forall handled before
    /\ re_compile spec = inl e
    /\ (forall msg, e <> re_error msg)
    /\ main args p = (inl (Error (Other e)), mkProcess (world p1) st1).
Proof.
  intros Hin Hnot. unfold main, io_bind at 1. rewrite Hin.
  unfold io_bind, run_engine.
  destruct (sanitize_text text (args_patterns args) (args_replacement args)
              (args_custom_replacement args) (engine p1)) as [[e|t] st1] eqn:Hs.
  - destruct (args_patterns args) as [|q qs] eqn:Hp; [discriminate|].
    destruct (loop_raises_first_unhandled _ _ _ _ _ _ _ Hs)
      as (before & spec & after & Hsplit & Hb & Hc & Hne).
    exists before, spec, after, e, st1.
    split; [exact Hsplit|]. split; [exact Hb|]. split; [exact Hc|].
    split; [exact Hne|reflexivity].
  - exfalso. apply Hnot. destruct (args_patterns args) as [|q qs]; [constructor|].
    exact (loop_returned _ _ _ _ _ _ _ Hs).
Qed.

End BoundaryFacts.

(** ** Instances of the further properties on concrete inputs *)

(** A process to start from: one file, standard input piped in, nothing
    printed yet. *)
Definition stub_process (w : StubOS.world) (st : State) : Process :=
  mkProcess (SYS := stub_os) w st.

Definition p0 : Process :=
  stub_process (StubOS.mkWorld [("in.txt", "Call 555-123-4567")] false "abc123def" []) st0.

Lemma remove_only_deletes_witness :
  subsequence "abcdef" "abc123def" /\ length "abcdef" <= length "abc123def".
Proof.
  apply (remove_only_deletes "abc123def" ["\d+"] None st0 st0 "abcdef").
  vm_compute. reflexivity.
Defined.

Lemma replacement_length_accounting_witness :
  (exists t, fst (sanitize_text "abc123def45" ["\d+"] "remove" None st0) = inr t
             /\ length t + total_matched (found "\d+" "abc123def45")
                = length "abc123def45")
  /\ (exists t, fst (sanitize_text "abc123def45" ["\d+"] "custom" (Some "##") st0) = inr t
                /\ length t + total_matched (found "\d+" "abc123def45")
                   = length "abc123def45"
                     + length (found "\d+" "abc123def45") * length "##").
Proof.
  apply (replacement_length_accounting (RE := py_re) "abc123def45" "\d+" (compiled "\d+")
           (found "\d+" "abc123def45") "#" "#" None st0).
  - vm_compute. reflexivity.
  - vm_compute. reflexivity.
Defined.

Lemma no_draw_unless_fake_witness :
  rng (snd (sanitize_text "abc123def" ["\d+"; "["] "custom" (Some "#") st0)) = rng st0.
Proof.
  apply (no_draw_unless_fake "abc123def" ["\d+"; "["] "custom" (Some "#") st0).
  discriminate.
Defined.

Lemma malformed_spec_skipped_witness :
  fst (sanitize_text "abc123def" (["\d"] ++ "[" :: ["def"]) "remove" None st0)
  = fst (sanitize_text "abc123def" (["\d"] ++ ["def"]) "remove" None st0)
  /\ rng (snd (sanitize_text "abc123def" (["\d"] ++ "[" :: ["def"]) "remove" None st0))
     = rng (snd (sanitize_text "abc123def" (["\d"] ++ ["def"]) "remove" None st0)).
Proof.
  apply (malformed_spec_skipped "[" "unterminated character set" ["\d"] ["def"]
           "abc123def" "remove" None st0).
  vm_compute. reflexivity.
Defined.

Lemma custom_missing_leaves_text_witness :
  exists logs,
    sanitize_text "abc123def" ["\d+"; "["] "custom" None st0
    = (inr "abc123def", mkState (rng st0) (records st0 ++ logs))
    /\ length logs = length ["\d+"; "["]
    /\ forallb is_error logs = true.
Proof.
  apply (custom_missing_leaves_text "abc123def" "\d+" ["["] None st0).
  - left. reflexivity.
  - repeat (constructor; [vm_compute; exact I|]). constructor.
Defined.

Lemma unknown_type_leaves_text_witness :
  exists logs,
    sanitize_text "abc123def" ["\d+"; "["] "redact" None st0
    = (inr "abc123def", mkState (rng st0) (records st0 ++ logs))
    /\ length logs = length ["\d+"; "["]
    /\ forallb is_error logs = true.
Proof.
  apply (unknown_type_leaves_text "abc123def" "redact" "\d+" ["["] None st0).
  - simpl. intros [H|[H|[H|[]]]]; discriminate.
  - repeat (constructor; [vm_compute; exact I|]). constructor.
Defined.

(** On the engine whose scan of [!] fails, the digits still go. *)
Example scan_failure_then_digits_removed :
  sanitize_text (RE := flaky_re) "abc123def" ["!"; "\d+"] "remove" None st0
  = (inr "abcdef",
     mkState 0 [mkLog ERROR "Error applying regex pattern re.compile(...): scan failed"]).
Proof. vm_compute. reflexivity. Qed.

Lemma scan_failure_skips_pattern_witness :
  sanitize_text (RE := flaky_re) "abc123def" ["!"] "remove" None st0
  = (inr "abc123def",
     after_scan_error (RE := flaky_re) st0 (PyRe.LITERAL "!"%char)
       (Exception "scan failed"))
  /\ sanitize_text (RE := flaky_re) "abc123def" ("!" :: "\d+" :: ["def"]) "remove" None st0
     = sanitize_text (RE := flaky_re) "abc123def" ("\d+" :: ["def"]) "remove" None
         (after_scan_error (RE := flaky_re) st0 (PyRe.LITERAL "!"%char)
            (Exception "scan failed"))
  /\ fst (sanitize_text (RE := flaky_re) "abc123def" ("!" :: "\d+" :: ["def"])
            "remove" None st0)
     = fst (sanitize_text (RE := flaky_re) "abc123def" ("\d+" :: ["def"])
              "remove" None st0).
Proof.
  apply (scan_failure_skips_pattern (RE := flaky_re) "abc123def" "!" "\d+" ["def"]
           "remove" None (PyRe.LITERAL "!"%char) (Exception "scan failed") st0).
  - left. reflexivity.
  - vm_compute. reflexivity.
  - vm_compute. reflexivity.
Defined.

Lemma read_text_file_returns_or_exits_witness :
  read_text_file "in.txt" p0 = (inr "Call 555-123-4567", p0).
Proof.
  refine (proj1 (read_text_file_returns_or_exits "in.txt" "ascii" p0 p0 _)
            "Call 555-123-4567" _).
  - reflexivity.
  - reflexivity.
Defined.

Lemma read_missing_file_witness :
  read_text_file "gone.txt" p0
  = (inl (SystemExit 1),
     mkProcess (world p0)
       (mkState (rng (engine p0))
          (records (engine p0) ++
           [mkLog ERROR ("Error detecting encoding for " ++ "gone.txt" ++ ": "
                           ++ "No such file or directory: gone.txt");
            mkLog ERROR ("File not found: " ++ "gone.txt")]))).
Proof.
  apply (read_missing_file "gone.txt" "No such file or directory: gone.txt"
           "No such file or directory: gone.txt" p0).
  - reflexivity.
  - intros encoding. reflexivity.
Defined.

Lemma main_stdin_is_terminal_witness :
  main (mkNamespace (Some "-") None ["\d+"] "remove" None)
    (stub_process (StubOS.mkWorld [] true "" []) st0)
  = (inl (SystemExit 1),
     logged (stub_process (StubOS.mkWorld [] true "" []) st0)
       (mkLog ERROR "No input provided via stdin.")).
Proof.
  apply (main_stdin_is_terminal None ["\d+"] "remove" None
           (stub_process (StubOS.mkWorld [] true "" []) st0)).
  reflexivity.
Defined.

Lemma main_input_does_not_exist_witness :
  main (mkNamespace (Some "gone.txt") None ["\d+"] "remove" None) p0
  = (inl (SystemExit 1),
     logged p0 (mkLog ERROR ("Input file does not exist: " ++ "gone.txt"))).
Proof.
  apply (main_input_does_not_exist "g" "one.txt" None ["\d+"] "remove" None p0).
  - discriminate.
  - reflexivity.
Defined.

Lemma main_exit_status_witness :
  main (mkNamespace (Some "gone.txt") (Some "out.txt") ["\d+"] "remove" None) p0
  = (inl (SystemExit 1),
     logged p0 (mkLog ERROR "Input file does not exist: gone.txt"))
  /\ (1 = 1
      /\ exists q msg,
           logged p0 (mkLog ERROR "Input file does not exist: gone.txt")
           = logged q (mkLog ERROR msg)).
Proof.
  split; [reflexivity|].
  apply (main_exit_status
           (mkNamespace (Some "gone.txt") (Some "out.txt") ["\d+"] "remove" None) p0
           (logged p0 (mkLog ERROR "Input file does not exist: gone.txt"))
           1).
  reflexivity.
Defined.

Lemma main_compile_exception_escapes_witness :
  exists before spec after e st1,
    ["\d+"; "a{4294967295}"; "def"] = before ++ spec :: after
    /\ Forall handled before
    /\ re_compile spec = inl e
    /\ (forall msg, e <> re_error msg)
    /\ main (mkNamespace (Some "-") None ["\d+"; "a{4294967295}"; "def"] "remove" None) p0
       = (inl (Error (Other e)),
          stub_process (StubOS.mkWorld [("in.txt", "Call 555-123-4567")] false "" [])
            st1).
Proof.
  apply (main_compile_exception_escapes
           (mkNamespace (Some "-") None ["\d+"; "a{4294967295}"; "def"] "remove" None)
           "abc123def" p0
           (stub_process (StubOS.mkWorld [("in.txt", "Call 555-123-4567")] false "" []) st0)).
  - reflexivity.
  - intros H. inversion H as [|q qs Hq Hqs]. inversion Hqs as [|q' qs' Hq' Hqs'].
    vm_compute in Hq'. exact Hq'.
Defined.

(** The run of that witness: the input is read from standard input, the
    [OverflowError] of the second spec leaves [main], nothing is
    printed. *)
Example main_overflow_spec_crashes :
  main (mkNamespace (Some "-") None ["\d+"; "a{4294967295}"; "def"] "remove" None) p0
  = (inl (Error (Other (OverflowError "the repetition number is too large"))),
     stub_process (StubOS.mkWorld [("in.txt", "Call 555-123-4567")] false "" []) st0).
Proof. vm_compute. reflexivity. Qed.

(** The program as a whole on the stand-ins: the file is read, the phone
    number is taken out, and the text is printed. *)
Example main_sanitizes_a_file :
  main (mkNamespace (Some "in.txt") None
          [email_pattern; phone_pattern; date_pattern; name_pattern] "remove" None) p0
  = (inr tt,
     stub_process
       (StubOS.mkWorld [("in.txt", "Call 555-123-4567")] false "abc123def" ["Call "])
       st0).
Proof. vm_compute. reflexivity. Qed.
